(** * FirebaseDriver: a shallow embedding of src/drivers/FirebaseDriver.ts

    The driver is one class whose eight data operations forward to the
    Firestore client SDK.  The embedding keeps the class as it is written:

    - the private fields [app], [db], [collectionRef] are nullable handles,
      modelled as [option]s in the record [FirebaseDriver];
    - [async] methods that may throw are computations in a state-and-error
      monad [M] over a [World]; a thrown error keeps the writes made before
      it (the source has no rollback);
    - the SDK calls [getDoc], [getDocs], [setDoc], [updateDoc], [deleteDoc]
      act on the documents of the bound collection, a finite map from
      document id to document data, and are recorded in a call log;
    - [Date.now()], [new Date()] and [Math.random()] read an environment
      [Env] of clock and random readings, indexed by how many reads were
      made so far.

    Modelling boundary.  JS values are null, booleans, integral numbers,
    strings and nested objects; document ids are opaque strings (no path
    separators); field names that the SDK refuses as malformed field
    paths are not modelled; the backend answers every well-formed request
    (network, quota and permission failures are not modelled) and returns
    the documents of a read in ascending order of their ids. *)

From Stdlib Require Import ZArith String Ascii List Lia.
From stdpp Require Import base option list strings gmap fin_maps pretty sorting.

Set Warnings "-register-all".

Local Open Scope string_scope.
Local Open Scope Z_scope.

(** ** Values, documents and queries *)

(** The JS values a [Data] or [Query] object may hold: scalars and nested
    objects. *)
Inductive value : Type :=
  | VNull : value
  | VBool : bool → value
  | VNum : Z → value
  | VStr : string → value
  | VMap : gmap string value → value.

Global Instance value_eq_dec : EqDecision value.
Proof.
  refine (fix go (x y : value) {struct x} : Decision (x = y) :=
    let _ : EqDecision value := go in
    match x, y with
    | VNull, VNull => left _
    | VBool a, VBool b => cast_if (decide (a = b))
    | VNum a, VNum b => cast_if (decide (a = b))
    | VStr a, VStr b => cast_if (decide (a = b))
    | VMap a, VMap b => cast_if (decide (a = b))
    | _, _ => right _
    end); congruence.
Defined.

(** JS truthiness, as used by [if (queryObj._id)]: a missing property is
    [undefined], which is falsy. *)
Definition truthy (v : option value) : bool :=
  match v with
  | None => false
  | Some VNull => false
  | Some (VBool b) => b
  | Some (VNum z) => negb (z =? 0)
  | Some (VStr s) => negb (String.eqb s "")
  | Some (VMap _) => true
  end.

(** [Data] and [Query] of ../interfaces/IDriver: objects used as maps from
    property names to values. *)
Abbreviation Data := (gmap string value).
Abbreviation Query := (gmap string value).

(** ** Field paths *)

(** A field name given to [where] or to [updateDoc] is read as a path:
    the name split at its dots. *)
Fixpoint field_path (s : string) : list string :=
  match s with
  | EmptyString => [EmptyString]
  | String c s' =>
      if Ascii.eqb c "." then EmptyString :: field_path s'
      else match field_path s' with
           | seg :: rest => String c seg :: rest
           | [] => [String c EmptyString]
           end
  end.

(** The field a path leads to in a document, if there is one. *)
Fixpoint get_path (path : list string) (d : Data) : option value :=
  match path with
  | [] => None
  | [k] => d !! k
  | k :: rest =>
      match d !! k with
      | Some (VMap m) => get_path rest m
      | _ => None
      end
  end.

(** Writing a value at a path: the objects on the way are created, and
    whatever else stood in their place is replaced. *)
Fixpoint set_path (path : list string) (v : value) (d : Data) : Data :=
  match path with
  | [] => d
  | [k] => <[k := v]> d
  | k :: rest =>
      <[k := VMap (set_path rest v
                     (match d !! k with Some (VMap m) => m | _ => ∅ end))]> d
  end.

(** What [updateDoc] makes of a document: every field of the update is
    written at its path. *)
Definition apply_update (updateData : Data) (old : Data) : Data :=
  map_fold (λ key v acc, set_path (field_path key) v acc) old updateData.

(** The characters a field path gives a meaning to. *)
Definition reserved (c : ascii) : bool :=
  existsb (Ascii.eqb c) ["."; "~"; "*"; "/"; "["; "]"]%char.

Fixpoint plain_chars (s : string) : bool :=
  match s with
  | EmptyString => true
  | String c s' => negb (reserved c) && plain_chars s'
  end.

(** A plain field name: not empty and without reserved characters, so
    that as a path it names one top-level field. *)
Definition plain_name (s : string) : bool :=
  negb (String.eqb s "") && plain_chars s.

Definition plain_fields (d : Data) : Prop :=
  ∀ k, is_Some (d !! k) → plain_name k = true.

(** ** The driver object and the world it runs in *)

Definition FirebaseOptions := string.

Record FirebaseApp := { app_options : FirebaseOptions }.
Record Firestore := { firestore_app : FirebaseApp }.
Record CollectionReference := { collection_path : string }.

Record FirebaseDriver := {
  app : option FirebaseApp;
  db : option Firestore;
  collectionName : string;
  firebaseConfig : FirebaseOptions;
  collectionRef : option CollectionReference;
}.

(** The requests sent to the backend, in the order they were issued. *)
Inductive Call : Type :=
  | CGetDocs : list (string * value) → Call
  | CGetDoc : string → Call
  | CSetDoc : string → Data → Call
  | CUpdateDoc : string → Data → Call
  | CDeleteDoc : string → Call.

Record World := {
  this : FirebaseDriver;
  docs : gmap string Data;
  calls : list Call;
  clock_reads : nat;
  random_reads : nat;
}.

(** The readings of the clock (milliseconds since the epoch) and of
    [Math.random().toString(36)], by read number. *)
Record Env := {
  now_at : nat → Z;
  random_at : nat → string;
}.

Inductive Error : Type :=
  | NotConnected : Error
  | BackendFailure : string → Error.

Inductive Result (A : Type) : Type :=
  | Ok : A → Result A
  | Err : Error → Result A.
Arguments Ok {A} _.
Arguments Err {A} _.

(** ** The monad of driver computations *)

Definition M (A : Type) : Type := World → Result A * World.

Definition ret {A} (a : A) : M A := λ w, (Ok a, w).
Definition throw {A} (e : Error) : M A := λ w, (Err e, w).
Definition bind {A B} (m : M A) (k : A → M B) : M B :=
  λ w, match m w with
       | (Ok a, w') => k a w'
       | (Err e, w') => (Err e, w')
       end.

Notation "'let!' x := m 'in' k" := (bind m (λ x, k))
  (at level 10, x name, m at level 100, k at level 200, only parsing).
Notation "'do!' m 'in' k" := (bind m (λ _, k))
  (at level 10, m at level 100, k at level 200, only parsing).

(** [for (const x of xs) { body }], threading the loop-carried variable. *)
Fixpoint for_of {A S} (xs : list A) (body : A → S → M S) (s : S) : M S :=
  match xs with
  | [] => ret s
  | x :: xs' => let! s' := body x s in for_of xs' body s'
  end.

(** ** The runtime: clock, random numbers, date rendering *)

Definition Date_now (env : Env) : M Z := λ w,
  (Ok (now_at env (clock_reads w)),
   {| this := this w; docs := docs w; calls := calls w;
      clock_reads := S (clock_reads w); random_reads := random_reads w |}).

Definition Math_random_toString36 (env : Env) : M string := λ w,
  (Ok (random_at env (random_reads w)),
   {| this := this w; docs := docs w; calls := calls w;
      clock_reads := clock_reads w; random_reads := S (random_reads w) |}).

(** Decimal rendering with leading zeros, [n] digits. *)
Fixpoint pad_go (n : nat) (z : Z) (acc : string) : string :=
  match n with
  | O => acc
  | S n' => pad_go n' (z / 10)
              (String (ascii_of_nat (48 + Z.to_nat (z mod 10))) acc)
  end.
Definition pad (n : nat) (z : Z) : string := pad_go n z "".

(** Civil date of a day number counted from 1970-01-01 (proleptic
    Gregorian calendar), as [Date.prototype.toISOString] uses it. *)
Definition civil_from_days (days : Z) : Z * Z * Z :=
  let z := days + 719468 in
  let era := z / 146097 in
  let doe := z - era * 146097 in
  let yoe := (doe - doe / 1460 + doe / 36524 - doe / 146096) / 365 in
  let doy := doe - (365 * yoe + yoe / 4 - yoe / 100) in
  let mp := (5 * doy + 2) / 153 in
  let d := doy - (153 * mp + 2) / 5 + 1 in
  let m := if mp <? 10 then mp + 3 else mp - 9 in
  let y := yoe + era * 400 + (if m <=? 2 then 1 else 0) in
  (y, m, d).

Definition render_year (y : Z) : string :=
  if (0 <=? y) && (y <=? 9999) then pad 4 y
  else if y <? 0 then "-" ++ pad 6 (- y)
  else "+" ++ pad 6 y.

(** [new Date(ms).toISOString()]. *)
Definition toISOString (ms : Z) : string :=
  let days := ms / 86400000 in
  let rest := ms mod 86400000 in
  let '(y, m, d) := civil_from_days days in
  render_year y ++ "-" ++ pad 2 m ++ "-" ++ pad 2 d ++ "T"
    ++ pad 2 (rest / 3600000) ++ ":" ++ pad 2 (rest / 60000 mod 60) ++ ":"
    ++ pad 2 (rest / 1000 mod 60) ++ "." ++ pad 3 (rest mod 1000) ++ "Z".

(** [new Date().toISOString()]: one clock read. *)
Definition new_Date_toISOString (env : Env) : M string :=
  let! ms := Date_now env in ret (toISOString ms).

(** ** The Firestore client, on the bound collection *)

Definition log (c : Call) : M unit := λ w,
  (Ok tt,
   {| this := this w; docs := docs w; calls := calls w ++ [c];
      clock_reads := clock_reads w; random_reads := random_reads w |}).

Definition put_docs (d : gmap string Data) : M unit := λ w,
  (Ok tt,
   {| this := this w; docs := d; calls := calls w;
      clock_reads := clock_reads w; random_reads := random_reads w |}).

Definition read_docs : M (gmap string Data) := λ w, (Ok (docs w), w).

(** [doc(db, collectionName, id)]: the reference of one document.  The id
    is whatever JS value the caller found, and must be a non-empty
    string. *)
Definition doc (id : option value) : M string :=
  match id with
  | Some (VStr s) =>
      if String.eqb s "" then throw (BackendFailure "invalid-argument")
      else ret s
  | _ => throw (BackendFailure "invalid-argument")
  end.

(** [where(key, '==', value)] on one document. *)
Definition satisfies (r : Data) (c : string * value) : bool :=
  bool_decide (get_path (field_path c.1) r = Some c.2).

Definition matches (constraints : list (string * value)) (r : Data) : bool :=
  forallb (satisfies r) constraints.

(** The order in which the backend returns documents: ascending
    document id. *)
Definition by_id (a b : string * Data) : Prop := String.leb a.1 b.1 = true.

Global Instance by_id_dec a b : Decision (by_id a b).
Proof. unfold by_id. apply _. Defined.

Definition snapshot_docs (d : gmap string Data) : list Data :=
  map snd (merge_sort by_id (map_to_list d)).

(** [getDocs(query(collectionRef, ...constraints))] followed by
    [snapshot.docs.map(doc => doc.data())]. *)
Definition getDocs (constraints : list (string * value)) : M (list Data) :=
  do! log (CGetDocs constraints) in
  let! d := read_docs in
  ret (List.filter (matches constraints) (snapshot_docs d)).

(** [getDoc(docRef)]: [None] stands for [!docSnap.exists()]. *)
Definition getDoc (docRef : string) : M (option Data) :=
  do! log (CGetDoc docRef) in
  let! d := read_docs in
  ret (d !! docRef).

Definition setDoc (docRef : string) (record : Data) : M unit :=
  do! log (CSetDoc docRef record) in
  let! d := read_docs in
  put_docs (<[docRef := record]> d).

(** [updateDoc] writes the given fields, each at its path, into an
    existing document and is rejected when there is none. *)
Definition updateDoc (docRef : string) (updateData : Data) : M unit :=
  do! log (CUpdateDoc docRef updateData) in
  let! d := read_docs in
  match d !! docRef with
  | Some old => put_docs (<[docRef := apply_update updateData old]> d)
  | None => throw (BackendFailure "not-found")
  end.

Definition deleteDoc (docRef : string) : M unit :=
  do! log (CDeleteDoc docRef) in
  let! d := read_docs in
  put_docs (delete docRef d).

(** ** FirebaseDriver *)

Definition constructor (config : FirebaseOptions) (name : string) : FirebaseDriver :=
  {| app := None; db := None; collectionName := name;
     firebaseConfig := config; collectionRef := None |}.

Definition set_this (f : FirebaseDriver → FirebaseDriver) : M unit := λ w,
  (Ok tt,
   {| this := f (this w); docs := docs w; calls := calls w;
      clock_reads := clock_reads w; random_reads := random_reads w |}).

Definition connect : M unit :=
  set_this (λ t,
    let a := {| app_options := firebaseConfig t |} in
    let d := {| firestore_app := a |} in
    {| app := Some a; db := Some d; collectionName := collectionName t;
       firebaseConfig := firebaseConfig t;
       collectionRef := Some {| collection_path := collectionName t |} |}).

Definition disconnect : M unit :=
  set_this (λ t,
    {| app := None; db := None; collectionName := collectionName t;
       firebaseConfig := firebaseConfig t; collectionRef := None |}).

Definition ensureConnected : M unit := λ w,
  match db (this w), collectionRef (this w) with
  | Some _, Some _ => (Ok tt, w)
  | _, _ => (Err NotConnected, w)
  end.

Definition generateId (env : Env) : M string :=
  let! now := Date_now env in
  let! r := Math_random_toString36 env in
  ret (pretty now ++ "_" ++ String.substring 2 13 r).

Definition set (env : Env) (data : Data) : M Data :=
  do! ensureConnected in
  let! id := generateId env in
  let! docRef := doc (Some (VStr id)) in
  let! createdAt := new_Date_toISOString env in
  let! updatedAt := new_Date_toISOString env in
  let record :=
    <["_updatedAt" := VStr updatedAt]>
      (<["_createdAt" := VStr createdAt]> (<["_id" := VStr id]> data)) in
  do! setDoc docRef record in
  ret record.

Definition get (queryObj : Query) : M (list Data) :=
  do! ensureConnected in
  if (length (map_to_list queryObj) =? 0)%nat then getDocs []
  else getDocs (map_to_list queryObj).

Definition getOne (queryObj : Query) : M (option Data) :=
  do! ensureConnected in
  if truthy (queryObj !! "_id") then
    let! docRef := doc (queryObj !! "_id") in
    getDoc docRef
  else
    let! results := get queryObj in
    ret (head results).

(** The fields [update] sends for one record, stamped at clock read
    [tick]: [{...data, _updatedAt: now}] with [_id] deleted. *)
Definition updateData (env : Env) (data : Data) (tick : nat) : Data :=
  delete "_id" (<["_updatedAt" := VStr (toISOString (now_at env tick))]> data).

(** Body of the [for (const record of records)] loop of [update]. *)
Definition update_each (env : Env) (data : Data) (record : Data) (count : nat)
  : M nat :=
  let! docRef := doc (record !! "_id") in
  let! updatedAt := new_Date_toISOString env in
  let updateData := delete "_id" (<["_updatedAt" := VStr updatedAt]> data) in
  do! updateDoc docRef updateData in
  ret (S count).

Definition update (env : Env) (queryObj : Query) (data : Data) : M nat :=
  do! ensureConnected in
  let! records := get queryObj in
  for_of records (update_each env data) 0%nat.

(** Body of the [for (const record of records)] loop of [delete]. *)
Definition delete_each (record : Data) (count : nat) : M nat :=
  let! docRef := doc (record !! "_id") in
  do! deleteDoc docRef in
  ret (S count).

Definition delete_ (queryObj : Query) : M nat :=
  do! ensureConnected in
  let! records := get queryObj in
  for_of records delete_each 0%nat.

Definition exists_ (queryObj : Query) : M bool :=
  do! ensureConnected in
  let! result := getOne queryObj in
  ret (bool_decide (result ≠ None)).

Definition count (queryObj : Query) : M nat :=
  do! ensureConnected in
  let! results := get queryObj in
  ret (length results).

Definition clear : M unit :=
  do! ensureConnected in
  let! _ := delete_ ∅ in
  ret tt.

(** The data operations as one type, for statements that range over all
    of them. *)
Inductive Op : Type :=
  | OpSet : Data → Op
  | OpGet : Query → Op
  | OpGetOne : Query → Op
  | OpUpdate : Query → Data → Op
  | OpDelete : Query → Op
  | OpExists : Query → Op
  | OpCount : Query → Op
  | OpClear : Op.

Inductive Outcome : Type :=
  | RetData : Data → Outcome
  | RetList : list Data → Outcome
  | RetOption : option Data → Outcome
  | RetNumber : nat → Outcome
  | RetBoolean : bool → Outcome
  | RetVoid : Outcome.

Definition exec (env : Env) (o : Op) : M Outcome :=
  match o with
  | OpSet data => let! r := set env data in ret (RetData r)
  | OpGet q => let! r := get q in ret (RetList r)
  | OpGetOne q => let! r := getOne q in ret (RetOption r)
  | OpUpdate q data => let! r := update env q data in ret (RetNumber r)
  | OpDelete q => let! r := delete_ q in ret (RetNumber r)
  | OpExists q => let! r := exists_ q in ret (RetBoolean r)
  | OpCount q => let! r := count q in ret (RetNumber r)
  | OpClear => do! clear in ret RetVoid
  end.

(** A caller issuing operations one after the other, catching each
    error. *)
Fixpoint run_all (env : Env) (ops : list Op) (w : World)
  : list (Result Outcome) * World :=
  match ops with
  | [] => ([], w)
  | o :: ops' =>
      let '(r, w') := exec env o w in
      let '(rs, w'') := run_all env ops' w' in
      (r :: rs, w'')
  end.

(** ** State predicates *)

Definition connected (w : World) : Prop :=
  is_Some (db (this w)) ∧ is_Some (collectionRef (this w)).

Definition not_connected (w : World) : Prop :=
  db (this w) = None ∨ collectionRef (this w) = None.

(** Every document of the collection is stored under its own [_id], a
    non-empty string: the shape of the records [set] writes. *)
Definition keyed_by_id (d : gmap string Data) : Prop :=
  ∀ k r, d !! k = Some r → r !! "_id" = Some (VStr k) ∧ k ≠ "".

(** The wall clock does not run backwards between two reads. *)
Definition clock_monotone (env : Env) : Prop :=
  ∀ i j, (i ≤ j)%nat → now_at env i ≤ now_at env j.

(** What [set] issues in a world: the id built from the next clock and
    random readings, and the record stamped by the two clock reads that
    follow. *)
Definition issued_id (env : Env) (w : World) : string :=
  pretty (now_at env (clock_reads w)) ++ "_"
    ++ String.substring 2 13 (random_at env (random_reads w)).

Definition issued_record (env : Env) (w : World) (data : Data) : Data :=
  <["_updatedAt" := VStr (toISOString (now_at env (S (S (clock_reads w)))))]>
    (<["_createdAt" := VStr (toISOString (now_at env (S (clock_reads w))))]>
       (<["_id" := VStr (issued_id env w)]> data)).

(** The records [get(queryObj)] returns from a collection. *)
Definition selected (queryObj : Query) (d : gmap string Data) : list Data :=
  List.filter (matches (map_to_list queryObj)) (snapshot_docs d).

(** Every stored [_updatedAt] is the rendering of a clock read already
    made. *)
Definition stamped_in_past (env : Env) (w : World) : Prop :=
  ∀ k r, docs w !! k = Some r →
    ∃ i, (i < clock_reads w)%nat
         ∧ r !! "_updatedAt" = Some (VStr (toISOString (now_at env i))).

(** Whether a string holds the separator [generateId] puts between the
    clock reading and the random suffix. *)
Fixpoint has_separator (s : string) : bool :=
  match s with
  | EmptyString => false
  | String c s' => Ascii.eqb c "_" || has_separator s'
  end.

(** The world after one more backend call, nothing else changed. *)
Definition after_call (w : World) (c : Call) : World :=
  {| this := this w; docs := docs w; calls := calls w ++ [c];
     clock_reads := clock_reads w; random_reads := random_reads w |}.

(** The reading of [getOne] under which any [_id] present in the query,
    whatever its value, is looked up directly: the document stored under
    that identifier (or null) is returned after a single [getDoc]. *)
Definition looks_up_any_given_id (q : Query) (w : World) : Prop :=
  ∀ v, q !! "_id" = Some v →
    ∃ id, v = VStr id
          ∧ getOne q w = (Ok (docs w !! id), after_call w (CGetDoc id)).

(** ** Sample environment and initial world *)

Definition env0 : Env :=
  {| now_at := λ n, 1700000000000 + Z.of_nat n;
     random_at := λ n, "0.4fzyo82mvyr" ++ pretty n |}.

Definition world0 : World :=
  {| this := constructor "demo-project" "users"; docs := ∅; calls := [];
     clock_reads := 0; random_reads := 0 |}.

Definition world_connected : World := (connect world0).2.

Definition world_one_record : World :=
  (set env0 {[ "name" := VStr "a" ]} world_connected).2.

Definition id_one_record : string := "1700000000000_4fzyo82mvyr0".

Definition one_record : Data :=
  {[ "_id" := VStr id_one_record;
     "_createdAt" := VStr "2023-11-14T22:13:20.001Z";
     "_updatedAt" := VStr "2023-11-14T22:13:20.002Z";
     "name" := VStr "a" ]}.

(** One of each data operation. *)
Definition every_operation : list Op :=
  [ OpSet {[ "name" := VStr "a" ]}; OpGet ∅; OpGetOne {[ "_id" := VStr "x" ]};
    OpUpdate ∅ {[ "name" := VStr "b" ]}; OpDelete ∅; OpExists ∅; OpCount ∅;
    OpClear ].

(** A collection holding a document that was not written by [set]: its
    [_id] field is the empty string. *)
Definition world_foreign_record : World :=
  {| this := this world_connected;
     docs := {[ "legacy" := {[ "_id" := VStr ""; "name" := VStr "a" ]} ]};
     calls := []; clock_reads := 0; random_reads := 0 |}.

(** A clock that stands still within one millisecond and a random source
    that yields the same fraction twice. *)
Definition env_tie : Env :=
  {| now_at := λ _, 1700000000000;
     random_at := λ _, "0.4fzyo82mvyr" |}.

(** The scenario of the specification: connect, insert a record, rename
    it, read it back, delete it, read again. *)
Definition scenario : M (Data * nat * option Data * nat * option Data) :=
  do! connect in
  let! r := set env0 {[ "name" := VStr "a" ]} in
  let q : Query := {[ "_id" := default VNull (r !! "_id") ]} in
  let! n := update env0 q {[ "name" := VStr "b" ]} in
  let! r' := getOne q in
  let! m := delete_ q in
  let! r'' := getOne q in
  ret (r, n, r', m, r'').

(** ** The accessors *)

Definition getCollectionRef : M (option CollectionReference) :=
  λ w, (Ok (collectionRef (this w)), w).

Definition getFirestore : M (option Firestore) :=
  λ w, (Ok (db (this w)), w).

Definition getApp : M (option FirebaseApp) :=
  λ w, (Ok (app (this w)), w).

(** [record._id] read as a document id; the empty string stands for
    anything that is not a string. *)
Definition record_id (r : Data) : string :=
  match r !! "_id" with
  | Some (VStr k) => k
  | _ => ""
  end.

(** A query agrees with a record when every field path it names leads,
    in the record, to the value it gives. *)
Definition agrees (q : Query) (r : Data) : Prop :=
  ∀ key v, q !! key = Some v → get_path (field_path key) r = Some v.

(** A query whose field names are well-formed paths: plain names joined
    by dots. *)
Definition well_formed_query (q : Query) : Prop :=
  ∀ key, is_Some (q !! key) →
    Forall (λ seg, plain_name seg = true) (field_path key).

(** A collection with one record written by [set] and one document that
    has no [_id] field. *)
Definition world_mixed : World :=
  {| this := this world_connected;
     docs := {[ "a" := {[ "_id" := VStr "a"; "name" := VStr "x" ]};
                "legacy" := {[ "name" := VStr "y" ]} ]};
     calls := []; clock_reads := 0; random_reads := 0 |}.

(** A field of an update is shadowed when another field of the update
    is a path through it. *)
Definition shadowed_in (d : Data) (f : string) : Prop :=
  ∃ k, is_Some (d !! k) ∧ k ≠ f ∧ head (field_path k) = Some f.


(** Whether a string holds the separator of document paths. *)
Fixpoint has_slash (s : string) : bool :=
  match s with
  | EmptyString => false
  | String c s' => Ascii.eqb c "/" || has_slash s'
  end.

(** The reading of [update] under which, on any connected driver, the
    call returns the number of records matching the query. *)
Definition update_returns_match_count
    (env : Env) (q : Query) (data : Data) (w : World) : Prop :=
  ∃ w', update env q data w = (Ok (length (selected q (docs w))), w').

(** A clock that is set back between the third and the fourth read. *)
Definition env_back : Env :=
  {| now_at := λ n, if (n <? 3)%nat then 1700000000000 + Z.of_nat n
                    else 1600000000000;
     random_at := λ n, "0.4fzyo82mvyr" ++ pretty n |}.

Definition world_one_record_back : World :=
  (set env_back {[ "name" := VStr "a" ]} world_connected).2.

(** The reading of [update] under which the [_updatedAt] a record carries
    after the call is never earlier than the one it carried before, as
    ISO strings compare. *)
Definition updatedAt_not_earlier
    (env : Env) (q : Query) (data : Data) (w : World) : Prop :=
  ∀ k r r' s s',
    docs w !! k = Some r → docs (update env q data w).2 !! k = Some r' →
    r !! "_updatedAt" = Some (VStr s) → r' !! "_updatedAt" = Some (VStr s') →
    String.leb s s' = true.

(** Two records written by [set] one after the other. *)
Definition world_two_records : World :=
  (set env0 {[ "name" := VStr "b" ]} world_one_record).2.

Definition id_second_record : string := "1700000000003_4fzyo82mvyr1".

(** The reading of [clear] under which, on any collection, the call
    succeeds and [count({})] is 0 afterwards. *)
Definition clear_leaves_nothing (w : World) : Prop :=
  ∃ w', clear w = (Ok tt, w') ∧ (count ∅ w').1 = Ok 0%nat.

(** * Properties *)

(** ** The date rendering on known instants *)

Example toISOString_epoch : toISOString 0 = "1970-01-01T00:00:00.000Z".
Proof. vm_compute. reflexivity. Qed.

Example toISOString_2023 :
  toISOString 1700000000000 = "2023-11-14T22:13:20.000Z".
Proof. vm_compute. reflexivity. Qed.

Example toISOString_leap :
  toISOString 951782400000 = "2000-02-29T00:00:00.000Z".
Proof. vm_compute. reflexivity. Qed.

Example toISOString_before_epoch :
  toISOString (-1) = "1969-12-31T23:59:59.999Z".
Proof. vm_compute. reflexivity. Qed.

Example toISOString_year_10000 :
  toISOString 253402300800000 = "+010000-01-01T00:00:00.000Z".
Proof. vm_compute. reflexivity. Qed.

(** ** Basic facts about the monad and the connection guard *)

Lemma bind_Ok {A B} (m : M A) (k : A → M B) w a w' :
  m w = (Ok a, w') → bind m k w = k a w'.
Proof. unfold bind. intros ->. reflexivity. Qed.

Lemma bind_Err {A B} (m : M A) (k : A → M B) w e w' :
  m w = (Err e, w') → bind m k w = (Err e, w').
Proof. unfold bind. intros ->. reflexivity. Qed.

Lemma ensureConnected_connected w :
  connected w → ensureConnected w = (Ok tt, w).
Proof.
  intros [[d Hd] [c Hc]]. unfold ensureConnected. rewrite Hd, Hc. reflexivity.
Qed.

Lemma ensureConnected_not_connected w :
  not_connected w → ensureConnected w = (Err NotConnected, w).
Proof.
  unfold ensureConnected. intros [H | H]; rewrite H; [reflexivity |].
  destruct (db (this w)); reflexivity.
Qed.

Lemma guarded_not_connected {A} (k : M A) w :
  not_connected w → bind ensureConnected (λ _, k) w = (Err NotConnected, w).
Proof.
  intros H. apply bind_Err. apply ensureConnected_not_connected, H.
Qed.

Lemma guarded_connected {A} (k : M A) w :
  connected w → bind ensureConnected (λ _, k) w = k w.
Proof.
  intros H. erewrite bind_Ok; [reflexivity |].
  apply ensureConnected_connected, H.
Qed.

Lemma constructor_not_connected config name d cs c r :
  not_connected {| this := constructor config name; docs := d; calls := cs;
                   clock_reads := c; random_reads := r |}.
Proof. left. reflexivity. Qed.

Lemma disconnect_not_connected w :
  (disconnect w).1 = Ok tt ∧ not_connected (disconnect w).2
  ∧ docs (disconnect w).2 = docs w ∧ calls (disconnect w).2 = calls w.
Proof. repeat split. left. reflexivity. Qed.

Lemma connect_connected w :
  (connect w).1 = Ok tt ∧ connected (connect w).2
  ∧ docs (connect w).2 = docs w ∧ calls (connect w).2 = calls w.
Proof. repeat split; cbn; eauto. Qed.

Lemma exec_not_connected env o w :
  not_connected w → exec env o w = (Err NotConnected, w).
Proof.
  intros H. destruct o; cbn [exec]; apply bind_Err;
    try (apply guarded_not_connected, H).
Qed.

(** C1. Every data operation (set, get, getOne, update, delete, exists,
    count, clear) issued while the driver is not connected -- its [db]
    handle or its collection reference is null, as before [connect()] and
    after [disconnect()] -- fails with the not-connected error and leaves
    the world exactly as it was: no backend call is logged, no document is
    touched, and the driver stays disconnected, so that every later
    operation of any sequence fails the same way. *)
Theorem not_connected_fails env w ops :
  not_connected w →
  run_all env ops w = (map (λ _, Err NotConnected) ops, w).
Proof.
  intros H. induction ops as [| o ops IH]; [reflexivity |].
  cbn [run_all map]. rewrite (exec_not_connected env o w H), IH. reflexivity.
Qed.

(** ** set *)

Lemma separator_nonempty (a b : string) : String.eqb (a ++ "_" ++ b) "" = false.
Proof. destruct a; reflexivity. Qed.

Lemma issued_id_nonempty env w : issued_id env w ≠ "".
Proof.
  intros H. pose proof (separator_nonempty
    (pretty (now_at env (clock_reads w)))
    (String.substring 2 13 (random_at env (random_reads w)))) as E.
  unfold issued_id in H. rewrite H in E. discriminate.
Qed.

Lemma set_run env w data :
  connected w →
  set env data w =
    (Ok (issued_record env w data),
     {| this := this w;
        docs := <[issued_id env w := issued_record env w data]> (docs w);
        calls := calls w ++ [CSetDoc (issued_id env w) (issued_record env w data)];
        clock_reads := S (S (S (clock_reads w)));
        random_reads := S (random_reads w) |}).
Proof.
  intros H. unfold set. rewrite guarded_connected by exact H.
  unfold generateId, bind, Date_now, Math_random_toString36, ret, doc.
  cbn -[String.append pretty toISOString String.substring].
  rewrite separator_nonempty. reflexivity.
Qed.

Lemma issued_record_reserved env w data :
  issued_record env w data !! "_id" = Some (VStr (issued_id env w))
  ∧ issued_record env w data !! "_createdAt"
      = Some (VStr (toISOString (now_at env (S (clock_reads w)))))
  ∧ issued_record env w data !! "_updatedAt"
      = Some (VStr (toISOString (now_at env (S (S (clock_reads w)))))).
Proof. unfold issued_record. repeat split; by simplify_map_eq. Qed.

Lemma issued_record_other env w data k :
  k ≠ "_id" → k ≠ "_createdAt" → k ≠ "_updatedAt" →
  issued_record env w data !! k = data !! k.
Proof. intros. unfold issued_record. by simplify_map_eq. Qed.

(** C2. On a connected driver, [set(data)] builds its id from the next
    clock and random readings, stamps [_createdAt] and [_updatedAt] with
    the clock, keeps every other field of [data], writes exactly that
    record under that id with one [setDoc], and returns the record it
    wrote. *)
Theorem set_persists_and_returns_record env w data :
  connected w →
  let id := issued_id env w in
  let record := issued_record env w data in
  (set env data w).1 = Ok record
  ∧ docs (set env data w).2 = <[id := record]> (docs w)
  ∧ calls (set env data w).2 = (calls w ++ [CSetDoc id record])%list
  ∧ this (set env data w).2 = this w
  ∧ record !! "_id" = Some (VStr id)
  ∧ record !! "_createdAt"
      = Some (VStr (toISOString (now_at env (S (clock_reads w)))))
  ∧ record !! "_updatedAt"
      = Some (VStr (toISOString (now_at env (S (S (clock_reads w))))))
  ∧ (∀ k, k ≠ "_id" → k ≠ "_createdAt" → k ≠ "_updatedAt" →
          record !! k = data !! k).
Proof.
  intros H id record. rewrite (set_run env w data H). cbn [fst snd docs calls this].
  destruct (issued_record_reserved env w data) as (Hid & Hc & Hu).
  repeat split; try assumption. apply issued_record_other.
Qed.

(** C9. Whatever [data] holds under [_id], [_createdAt] or [_updatedAt]
    has no effect on [set]: the call behaves exactly as on [data] with
    those three keys removed, and the record written and returned carries
    the generated id and the fresh stamps. *)
Theorem set_ignores_reserved_fields env w data :
  connected w →
  set env data w
    = set env (delete "_id" (delete "_createdAt" (delete "_updatedAt" data))) w
  ∧ ∃ record,
      (set env data w).1 = Ok record
      ∧ docs (set env data w).2 !! issued_id env w = Some record
      ∧ record !! "_id" = Some (VStr (issued_id env w))
      ∧ record !! "_createdAt"
          = Some (VStr (toISOString (now_at env (S (clock_reads w)))))
      ∧ record !! "_updatedAt"
          = Some (VStr (toISOString (now_at env (S (S (clock_reads w)))))).
Proof.
  intros H. split.
  - rewrite !set_run by exact H.
    assert (issued_record env w
              (delete "_id" (delete "_createdAt" (delete "_updatedAt" data)))
            = issued_record env w data) as ->; [| reflexivity].
    apply map_eq. intros k. unfold issued_record.
    destruct (decide (k = "_updatedAt")) as [-> | ?]; [by simplify_map_eq |].
    destruct (decide (k = "_createdAt")) as [-> | ?]; [by simplify_map_eq |].
    destruct (decide (k = "_id")) as [-> | ?]; by simplify_map_eq.
  - exists (issued_record env w data). rewrite set_run by exact H.
    cbn [fst snd docs]. rewrite lookup_insert_eq.
    destruct (issued_record_reserved env w data) as (Hid & Hc & Hu).
    repeat split; assumption.
Qed.

(** ** getOne *)

Lemma getOne_by_id q w id :
  connected w → q !! "_id" = Some (VStr id) → id ≠ "" →
  getOne q w =
    (Ok (docs w !! id),
     {| this := this w; docs := docs w; calls := calls w ++ [CGetDoc id];
        clock_reads := clock_reads w; random_reads := random_reads w |}).
Proof.
  intros H Hq Hne. unfold getOne. rewrite guarded_connected by exact H.
  rewrite Hq. cbn [truthy doc].
  apply String.eqb_neq in Hne. rewrite Hne. reflexivity.
Qed.

Lemma getOne_by_query q w :
  connected w → truthy (q !! "_id") = false →
  getOne q w = bind (get q) (λ results, ret (head results)) w.
Proof.
  intros H Hq. unfold getOne. rewrite guarded_connected by exact H.
  rewrite Hq. reflexivity.
Qed.

Lemma get_run q w :
  connected w →
  get q w =
    (Ok (selected q (docs w)),
     {| this := this w; docs := docs w;
        calls := calls w ++ [CGetDocs (map_to_list q)];
        clock_reads := clock_reads w; random_reads := random_reads w |}).
Proof.
  intros H. unfold get, selected. rewrite guarded_connected by exact H.
  destruct (map_to_list q) as [| c cs]; reflexivity.
Qed.

(** C6. On a connected driver, looking up by point query the [_id] of the
    record [set(r)] returned gives back exactly that record, with all its
    fields as [set] returned them. *)
Theorem set_then_getOne_roundtrip env w data :
  connected w →
  ∃ record id w',
    set env data w = (Ok record, w')
    ∧ record !! "_id" = Some (VStr id)
    ∧ (getOne {[ "_id" := VStr id ]} w').1 = Ok (Some record).
Proof.
  intros H. eexists _, (issued_id env w), _. split; [apply set_run, H |].
  split; [apply issued_record_reserved |].
  rewrite (getOne_by_id _ _ (issued_id env w)).
  - cbn [fst docs]. by rewrite lookup_insert_eq.
  - exact H.
  - by simplify_map_eq.
  - apply issued_id_nonempty.
Qed.

(** ** Collections keyed by [_id] and what [get] selects from them *)

Lemma NoDup_map_filter {A B} (f : A → B) (p : A → bool) (l : list A) :
  NoDup (map f l) → NoDup (map f (List.filter p l)).
Proof.
  induction l as [| a l IH]; cbn [map List.filter]; intros H; [constructor |].
  apply NoDup_cons in H as [Hnotin Hnd].
  destruct (p a); cbn [map]; [| auto].
  apply NoDup_cons. split; [| auto].
  rewrite list_elem_of_In, in_map_iff. intros (x & Hx & Hin).
  apply filter_In in Hin as [Hin _].
  apply Hnotin. rewrite list_elem_of_In, in_map_iff. eauto.
Qed.

Lemma sorted_docs_Permutation (d : gmap string Data) :
  merge_sort by_id (map_to_list d) ≡ₚ map_to_list d.
Proof. apply merge_sort_Permutation. Qed.

Lemma snapshot_docs_In d r :
  In r (snapshot_docs d) ↔ ∃ k, d !! k = Some r.
Proof.
  unfold snapshot_docs. rewrite in_map_iff. split.
  - intros ([k r'] & <- & Hin). exists k.
    apply elem_of_map_to_list. rewrite <- (sorted_docs_Permutation d).
    apply list_elem_of_In, Hin.
  - intros [k Hk]. exists (k, r). split; [reflexivity |].
    apply list_elem_of_In. rewrite (sorted_docs_Permutation d).
    apply elem_of_map_to_list, Hk.
Qed.

Lemma length_snapshot_docs d : length (snapshot_docs d) = size d.
Proof.
  unfold snapshot_docs.
  rewrite length_map, (Permutation_length (sorted_docs_Permutation d)).
  apply length_map_to_list.
Qed.

Lemma selected_In q d r :
  In r (selected q d) ↔
  (∃ k, d !! k = Some r) ∧ matches (map_to_list q) r = true.
Proof. unfold selected. rewrite filter_In, snapshot_docs_In. reflexivity. Qed.

Lemma selected_keyed q d r :
  keyed_by_id d → In r (selected q d) →
  ∃ k, r !! "_id" = Some (VStr k) ∧ k ≠ "" ∧ d !! k = Some r.
Proof.
  intros Hkey [[k Hk] _]%selected_In.
  destruct (Hkey k r Hk) as [Hid Hne]. eauto.
Qed.

Lemma selected_NoDup_ids q d :
  keyed_by_id d → NoDup (map (λ r : Data, r !! "_id") (selected q d)).
Proof.
  intros Hkey. unfold selected, snapshot_docs. apply NoDup_map_filter.
  rewrite map_map.
  assert (map (λ x : string * Data, x.2 !! "_id") (merge_sort by_id (map_to_list d))
          = map (λ x : string * Data, Some (VStr x.1))
              (merge_sort by_id (map_to_list d))) as ->.
  { apply map_ext_in. intros [k r] Hin. cbn.
    apply list_elem_of_In in Hin. rewrite (sorted_docs_Permutation d) in Hin.
    apply elem_of_map_to_list in Hin. apply (Hkey k r Hin). }
  pose proof (NoDup_fst_map_to_list d) as Hnd.
  rewrite <- (map_map fst (λ k : string, Some (VStr k))).
  assert (Inj (=) (=) (λ k : string, Some (VStr k))) as Hinj.
  { intros a b E. by simplify_eq. }
  apply (NoDup_fmap_2 (λ k : string, Some (VStr k))).
  change (NoDup ((merge_sort by_id (map_to_list d)).*1)).
  by rewrite (sorted_docs_Permutation d).
Qed.

Lemma selected_empty_query d :
  selected ∅ d = snapshot_docs d.
Proof.
  unfold selected. rewrite map_to_list_empty. cbn.
  induction (snapshot_docs d) as [| x l IH]; cbn; [| rewrite IH]; reflexivity.
Qed.


(** ** The loop of update *)

Lemma update_each_run env data r c w k :
  r !! "_id" = Some (VStr k) → k ≠ "" → docs w !! k = Some r →
  update_each env data r c w =
    (Ok (S c),
     {| this := this w;
        docs := <[k := apply_update (updateData env data (clock_reads w)) r]> (docs w);
        calls := calls w ++ [CUpdateDoc k (updateData env data (clock_reads w))];
        clock_reads := S (clock_reads w);
        random_reads := random_reads w |}).
Proof.
  intros Hid Hne Hk. unfold update_each. rewrite Hid. cbn [doc].
  apply String.eqb_neq in Hne. rewrite Hne.
  unfold bind, ret, new_Date_toISOString, Date_now, updateDoc, log, read_docs,
    put_docs, bind, ret.
  cbn [docs]. rewrite Hk. reflexivity.
Qed.

Lemma update_loop env data records :
  ∀ c w,
    (∀ r, In r records →
       ∃ k, r !! "_id" = Some (VStr k) ∧ k ≠ "" ∧ docs w !! k = Some r) →
    NoDup (map (λ r : Data, r !! "_id") records) →
    ∃ w',
      for_of records (update_each env data) c w = (Ok (c + length records)%nat, w')
      ∧ this w' = this w
      ∧ clock_reads w' = (clock_reads w + length records)%nat
      ∧ (∀ k, (∀ r, In r records → r !! "_id" ≠ Some (VStr k)) →
              docs w' !! k = docs w !! k)
      ∧ (∀ i r k, records !! i = Some r → r !! "_id" = Some (VStr k) →
              docs w' !! k
                = Some (apply_update (updateData env data (clock_reads w + i)) r)).
Proof.
  induction records as [| r rs IH]; intros c w Hin Hnd.
  - exists w. cbn [for_of length]. rewrite !Nat.add_0_r.
    split; [reflexivity |]. split; [reflexivity |]. split; [reflexivity |].
    split; [reflexivity |]. intros i r k Hi. destruct i; discriminate.
  - destruct (Hin r (or_introl eq_refl)) as (k & Hid & Hne & Hk).
    cbn [map] in Hnd. apply NoDup_cons in Hnd as [Hfresh Hnd].
    assert (∀ r', In r' rs → r' !! "_id" ≠ Some (VStr k)) as Hother.
    { intros r' Hr' E. apply Hfresh. rewrite list_elem_of_In, in_map_iff.
      exists r'. split; [congruence | exact Hr']. }
    set (w1 := {| this := this w;
        docs := <[k := apply_update (updateData env data (clock_reads w)) r]> (docs w);
        calls := calls w ++ [CUpdateDoc k (updateData env data (clock_reads w))];
        clock_reads := S (clock_reads w);
        random_reads := random_reads w |}).
    destruct (IH (S c) w1) as (w' & Hrun & Hthis & Hclock & Hframe & Hupd).
    { intros r' Hr'. destruct (Hin r' (or_intror Hr')) as (k' & Hid' & Hne' & Hk').
      exists k'. repeat split; try assumption.
      cbn [w1 docs]. rewrite lookup_insert_ne; [exact Hk' |].
      intros ->. exact (Hother r' Hr' Hid'). }
    { exact Hnd. }
    exists w'. split; [| split; [| split; [| split]]].
    + cbn [for_of]. erewrite bind_Ok by (apply update_each_run; eassumption).
      fold w1. rewrite Hrun. f_equal. f_equal. cbn [length]. lia.
    + exact Hthis.
    + rewrite Hclock. cbn [w1 clock_reads length]. lia.
    + intros k' Hk'. rewrite Hframe.
      * cbn [w1 docs]. apply lookup_insert_ne. intros ->.
        exact (Hk' r (or_introl eq_refl) Hid).
      * intros r' Hr'. apply Hk'. right. exact Hr'.
    + intros [| i] r' k' Hi Hid'.
      * cbn in Hi. injection Hi as <-. rewrite Hid in Hid'. injection Hid' as <-.
        rewrite Hframe by exact Hother. cbn [w1 docs].
        rewrite lookup_insert_eq, Nat.add_0_r. reflexivity.
      * cbn in Hi. rewrite (Hupd i r' k' Hi Hid'). cbn [w1 clock_reads].
        do 3 f_equal. lia.
Qed.

(** ** The loop of delete *)

Lemma classic_in_ids (rs : list Data) (k : string) :
  (∃ r, In r rs ∧ r !! "_id" = Some (VStr k))
  ∨ (∀ r, In r rs → r !! "_id" ≠ Some (VStr k)).
Proof.
  induction rs as [| r rs [(r' & Hr' & Hid) | Hnone]].
  - right. intros r [].
  - left. exists r'. split; [right |]; assumption.
  - destruct (decide (r !! "_id" = Some (VStr k))) as [E | NE].
    + left. exists r. split; [left; reflexivity | exact E].
    + right. intros r' [<- | Hr']; [exact NE | exact (Hnone r' Hr')].
Qed.

Lemma delete_each_run r c w k :
  r !! "_id" = Some (VStr k) → k ≠ "" →
  delete_each r c w =
    (Ok (S c),
     {| this := this w; docs := delete k (docs w);
        calls := calls w ++ [CDeleteDoc k];
        clock_reads := clock_reads w; random_reads := random_reads w |}).
Proof.
  intros Hid Hne. unfold delete_each. rewrite Hid. cbn [doc].
  apply String.eqb_neq in Hne. rewrite Hne. reflexivity.
Qed.

Lemma delete_loop records :
  ∀ c w,
    (∀ r, In r records → ∃ k, r !! "_id" = Some (VStr k) ∧ k ≠ "") →
    ∃ w',
      for_of records delete_each c w = (Ok (c + length records)%nat, w')
      ∧ this w' = this w
      ∧ clock_reads w' = clock_reads w
      ∧ (∀ k, (∀ r, In r records → r !! "_id" ≠ Some (VStr k)) →
              docs w' !! k = docs w !! k)
      ∧ (∀ r k, In r records → r !! "_id" = Some (VStr k) →
              docs w' !! k = None).
Proof.
  induction records as [| r rs IH]; intros c w Hin.
  - exists w. cbn [for_of length]. rewrite !Nat.add_0_r.
    split; [reflexivity |]. split; [reflexivity |]. split; [reflexivity |].
    split; [reflexivity |]. intros r k [].
  - destruct (Hin r (or_introl eq_refl)) as (k & Hid & Hne).
    set (w1 := {| this := this w; docs := delete k (docs w);
        calls := calls w ++ [CDeleteDoc k];
        clock_reads := clock_reads w; random_reads := random_reads w |}).
    destruct (IH (S c) w1) as (w' & Hrun & Hthis & Hclock & Hframe & Hdel).
    { intros r' Hr'. apply Hin. right. exact Hr'. }
    exists w'. split; [| split; [| split; [| split]]].
    + cbn [for_of]. erewrite bind_Ok by (apply delete_each_run; eassumption).
      fold w1. rewrite Hrun. f_equal. f_equal. cbn [length]. lia.
    + exact Hthis.
    + exact Hclock.
    + intros k' Hk'. rewrite Hframe.
      * cbn [w1 docs]. apply lookup_delete_ne. intros ->.
        exact (Hk' r (or_introl eq_refl) Hid).
      * intros r' Hr'. apply Hk'. right. exact Hr'.
    + intros r' k' [<- | Hr'] Hid'.
      * rewrite Hid in Hid'. injection Hid' as <-.
        destruct (classic_in_ids rs k) as [(r2 & Hr2 & Hid2) | Hnone].
        -- exact (Hdel r2 k Hr2 Hid2).
        -- rewrite Hframe by exact Hnone. cbn [w1 docs]. apply lookup_delete_eq.
      * exact (Hdel r' k' Hr' Hid').
Qed.

(** ** update and delete on a collection keyed by [_id] *)

Lemma selected_id_unique q d r k :
  keyed_by_id d → In r (selected q d) → r !! "_id" = Some (VStr k) →
  d !! k = Some r ∧ matches (map_to_list q) r = true.
Proof.
  intros Hkey Hin Hid. split; [| apply selected_In in Hin; tauto].
  destruct (selected_keyed q d r Hkey Hin) as (k' & Hid' & _ & Hk').
  rewrite Hid in Hid'. by simplify_eq.
Qed.

Lemma update_run env q data w :
  connected w → keyed_by_id (docs w) →
  ∃ w',
    update env q data w = (Ok (length (selected q (docs w))), w')
    ∧ this w' = this w
    ∧ clock_reads w' = (clock_reads w + length (selected q (docs w)))%nat
    ∧ (∀ k, docs w !! k = None → docs w' !! k = None)
    ∧ (∀ k r, docs w !! k = Some r → matches (map_to_list q) r = false →
              docs w' !! k = Some r)
    ∧ (∀ k r, docs w !! k = Some r → matches (map_to_list q) r = true →
         ∃ t, (clock_reads w ≤ t < clock_reads w + length (selected q (docs w)))%nat
              ∧ docs w' !! k = Some (apply_update (updateData env data t) r)).
Proof.
  intros Hc Hkey. unfold update. rewrite guarded_connected by exact Hc.
  erewrite bind_Ok by (apply get_run, Hc).
  set (w0 := {| this := this w; docs := docs w;
                calls := calls w ++ [CGetDocs (map_to_list q)];
                clock_reads := clock_reads w; random_reads := random_reads w |}).
  destruct (update_loop env data (selected q (docs w)) 0%nat w0)
    as (w' & Hrun & Hthis & Hclock & Hframe & Hupd).
  { intros r Hr. exact (selected_keyed q (docs w) r Hkey Hr). }
  { apply selected_NoDup_ids, Hkey. }
  exists w'. split; [exact Hrun |]. split; [exact Hthis |].
  split; [exact Hclock |]. split; [| split].
  - intros k Hk. rewrite Hframe; [exact Hk |].
    intros r Hr Hid.
    destruct (selected_id_unique q (docs w) r k Hkey Hr Hid) as [Hk' _].
    congruence.
  - intros k r Hk Hm. rewrite Hframe; [exact Hk |].
    intros r' Hr' Hid.
    destruct (selected_id_unique q (docs w) r' k Hkey Hr' Hid) as [Hk' Hm'].
    congruence.
  - intros k r Hk Hm.
    assert (In r (selected q (docs w))) as Hin.
    { apply selected_In. eauto. }
    apply list_elem_of_In, list_elem_of_lookup_1 in Hin as [i Hi].
    exists (clock_reads w + i)%nat. split.
    + apply lookup_lt_Some in Hi. lia.
    + apply (Hupd i r k Hi). apply (Hkey k r Hk).
Qed.

Lemma delete_run q w :
  connected w → keyed_by_id (docs w) →
  ∃ w',
    delete_ q w = (Ok (length (selected q (docs w))), w')
    ∧ this w' = this w
    ∧ clock_reads w' = clock_reads w
    ∧ (∀ k, docs w !! k = None → docs w' !! k = None)
    ∧ (∀ k r, docs w !! k = Some r → matches (map_to_list q) r = false →
              docs w' !! k = Some r)
    ∧ (∀ k r, docs w !! k = Some r → matches (map_to_list q) r = true →
              docs w' !! k = None).
Proof.
  intros Hc Hkey. unfold delete_. rewrite guarded_connected by exact Hc.
  erewrite bind_Ok by (apply get_run, Hc).
  set (w0 := {| this := this w; docs := docs w;
                calls := calls w ++ [CGetDocs (map_to_list q)];
                clock_reads := clock_reads w; random_reads := random_reads w |}).
  destruct (delete_loop (selected q (docs w)) 0%nat w0)
    as (w' & Hrun & Hthis & Hclock & Hframe & Hdel).
  { intros r Hr.
    destruct (selected_keyed q (docs w) r Hkey Hr) as (k & ? & ? & _). eauto. }
  exists w'. split; [exact Hrun |]. split; [exact Hthis |].
  split; [exact Hclock |]. split; [| split].
  - intros k Hk. rewrite Hframe; [exact Hk |].
    intros r Hr Hid.
    destruct (selected_id_unique q (docs w) r k Hkey Hr Hid) as [Hk' _].
    congruence.
  - intros k r Hk Hm. rewrite Hframe; [exact Hk |].
    intros r' Hr' Hid.
    destruct (selected_id_unique q (docs w) r' k Hkey Hr' Hid) as [Hk' Hm'].
    congruence.
  - intros k r Hk Hm. apply (Hdel r k).
    + apply selected_In. eauto.
    + apply (Hkey k r Hk).
Qed.

Lemma count_run q w :
  connected w →
  (count q w).1 = Ok (length (selected q (docs w)))
  ∧ docs (count q w).2 = docs w.
Proof.
  intros Hc. unfold count. rewrite guarded_connected by exact Hc.
  erewrite bind_Ok by (apply get_run, Hc). split; reflexivity.
Qed.

(** *** Field paths and what an update writes *)

Lemma field_path_cons s : ∃ k rest, field_path s = k :: rest.
Proof.
  induction s as [| c s IH]; cbn; [eauto |].
  destruct (Ascii.eqb c "."); [eauto |].
  destruct (field_path s); eauto.
Qed.

Lemma field_path_plain s : plain_chars s = true → field_path s = [s].
Proof.
  induction s as [| c s IH]; cbn; [reflexivity |].
  intros [Hc Hs]%andb_prop. unfold reserved in Hc. cbn in Hc.
  destruct (Ascii.eqb c "."); [discriminate |]. by rewrite IH.
Qed.

Lemma plain_name_path s : plain_name s = true → field_path s = [s].
Proof. intros [_ H]%andb_prop. by apply field_path_plain. Qed.

Lemma set_path_other path v d f :
  head path ≠ Some f → set_path path v d !! f = d !! f.
Proof.
  destruct path as [| k [| k' rest]]; cbn; intros Hne; [reflexivity | |];
    apply lookup_insert_ne; congruence.
Qed.

(** A field of the result of an update, when no other field of the update
    is a path through it. *)
Lemma apply_update_lookup (u r : Data) f :
  (∀ k, is_Some (u !! k) → k ≠ f → head (field_path k) ≠ Some f) →
  (is_Some (u !! f) → field_path f = [f]) →
  apply_update u r !! f
  = match u !! f with Some v => Some v | None => r !! f end.
Proof.
  unfold apply_update.
  apply (map_fold_weak_ind
    (λ acc (m : Data),
       (∀ k, is_Some (m !! k) → k ≠ f → head (field_path k) ≠ Some f) →
       (is_Some (m !! f) → field_path f = [f]) →
       acc !! f = match m !! f with Some v => Some v | None => r !! f end)).
  - intros _ _. by rewrite lookup_empty.
  - intros i x m acc Hi IH Hother Hself.
    destruct (decide (i = f)) as [-> | Hne].
    + rewrite lookup_insert_eq.
      rewrite Hself by (rewrite lookup_insert_eq; eauto).
      cbn. by rewrite lookup_insert_eq.
    + rewrite lookup_insert_ne by done.
      rewrite set_path_other.
      * apply IH.
        -- intros k Hk Hkf. apply Hother; [| done].
           destruct (decide (k = i)) as [-> | ?];
             [rewrite Hi in Hk; by destruct Hk |].
           by rewrite lookup_insert_ne.
        -- intros Hf. apply Hself. by rewrite lookup_insert_ne.
      * apply Hother; [rewrite lookup_insert_eq; eauto | done].
Qed.

(** With plain field names an update is a flat overlay. *)
Lemma apply_update_plain (u r : Data) :
  plain_fields u → apply_update u r = u ∪ r.
Proof.
  intros Hplain. apply map_eq. intros f. rewrite apply_update_lookup.
  - rewrite lookup_union. by destruct (u !! f), (r !! f).
  - intros k Hk Hkf. rewrite (plain_name_path k (Hplain k Hk)). cbn. congruence.
  - intros Hf. apply plain_name_path, Hplain, Hf.
Qed.

Lemma updateData_lookup env data t f :
  updateData env data t !! f
  = if decide (f = "_id") then None
    else if decide (f = "_updatedAt")
         then Some (VStr (toISOString (now_at env t)))
         else data !! f.
Proof.
  unfold updateData. repeat case_decide; subst; by simplify_map_eq.
Qed.

Lemma updateData_plain env data t :
  plain_fields data → plain_fields (updateData env data t).
Proof.
  intros Hplain k. rewrite updateData_lookup.
  repeat case_decide; subst; [by intros [] | done | apply Hplain].
Qed.


Lemma updateData_not_shadowing env data t f :
  ¬ shadowed_in data f →
  ∀ k, is_Some (updateData env data t !! k) → k ≠ f →
       head (field_path k) ≠ Some f.
Proof.
  intros Hfree k Hk Hkf. rewrite updateData_lookup in Hk.
  destruct (decide (k = "_id")) as [-> | ?]; [by destruct Hk |].
  destruct (decide (k = "_updatedAt")) as [-> | ?]; [cbn; congruence |].
  intros Hhead. apply Hfree. exists k. done.
Qed.


(** C3, as stated, fails on a collection holding a document that has no
    [_id] of its own: [update] throws when it reaches that record instead
    of returning the number of matches. *)
Lemma update_throws_on_foreign_record :
  ¬ update_returns_match_count env0 ∅ {[ "name" := VStr "b" ]} world_mixed.
Proof.
  intros [w' Hrun]. apply (f_equal fst) in Hrun. vm_compute in Hrun.
  discriminate Hrun.
Qed.

(** C10. [update(q, d)] removes only [_id] from what it writes: on a
    connected driver and a collection keyed by [_id], every plain field
    of [d] other than [_id] and [_updatedAt] -- [_createdAt] included --
    replaces the value stored in each matching record, provided no other
    field of [d] is a path through it; the record's [_id] stays under the
    same proviso. *)
Theorem update_overwrites_createdAt env q data w k r :
  connected w → keyed_by_id (docs w) →
  docs w !! k = Some r → matches (map_to_list q) r = true →
  ∃ n w' r',
    update env q data w = (Ok n, w')
    ∧ docs w' !! k = Some r'
    ∧ (¬ shadowed_in data "_id" → r' !! "_id" = r !! "_id")
    ∧ (∀ f v, data !! f = Some v → f ≠ "_id" → f ≠ "_updatedAt" →
              plain_name f = true → ¬ shadowed_in data f →
              r' !! f = Some v)
    ∧ (∀ v, data !! "_createdAt" = Some v →
            ¬ shadowed_in data "_createdAt" →
            r' !! "_createdAt" = Some v).
Proof.
  intros Hc Hkey Hk Hm.
  destruct (update_run env q data w Hc Hkey)
    as (w' & Hrun & _ & _ & _ & _ & Hupd).
  destruct (Hupd k r Hk Hm) as (t & _ & Hk').
  exists (length (selected q (docs w))), w',
         (apply_update (updateData env data t) r).
  split; [exact Hrun |]. split; [exact Hk' |].
  assert (∀ f v, data !! f = Some v → f ≠ "_id" → f ≠ "_updatedAt" →
                 plain_name f = true → ¬ shadowed_in data f →
                 apply_update (updateData env data t) r !! f = Some v) as Hgen.
  { intros f v Hf H1 H2 Hplain Hfree. rewrite apply_update_lookup.
    - rewrite updateData_lookup, !decide_False by done. by rewrite Hf.
    - by apply updateData_not_shadowing.
    - intros _. by apply plain_name_path. }
  split; [| split; [exact Hgen |]].
  - intros Hfree. rewrite apply_update_lookup.
    + by rewrite updateData_lookup.
    + by apply updateData_not_shadowing.
    + rewrite updateData_lookup. cbn. by intros [].
  - intros v Hv Hfree. by apply Hgen.
Qed.



(** C7, as stated, fails on a collection holding a document that has no
    [_id] of its own: [clear()] throws when it reaches that document and
    leaves it in the collection. *)
Lemma clear_throws_on_foreign_record : ¬ clear_leaves_nothing world_mixed.
Proof.
  intros (w' & Hrun & _). apply (f_equal fst) in Hrun. vm_compute in Hrun.
  discriminate Hrun.
Qed.

Example clear_leaves_foreign_record :
  docs (clear world_mixed).2 !! "legacy" = Some {[ "name" := VStr "y" ]}
  ∧ docs (clear world_mixed).2 !! "a" = None.
Proof. split; vm_compute; reflexivity. Qed.

(** C8, as stated, fails when the wall clock is set back between the
    write that stamped a record and a later update: the record then
    carries an earlier [_updatedAt] than before. *)
Lemma updatedAt_goes_back_with_the_clock :
  ¬ updatedAt_not_earlier env_back ∅ {[ "name" := VStr "b" ]}
      world_one_record_back.
Proof.
  intros H.
  specialize (H id_one_record one_record
                (<["_updatedAt" := VStr "2020-09-13T12:26:40.000Z"]>
                   (<["name" := VStr "b"]> one_record))
                "2023-11-14T22:13:20.002Z" "2020-09-13T12:26:40.000Z").
  assert (String.leb "2023-11-14T22:13:20.002Z" "2020-09-13T12:26:40.000Z"
          = true) as Hle.
  { apply H; vm_compute; reflexivity. }
  vm_compute in Hle. discriminate Hle.
Qed.

(** ** The driver keeps its own collections keyed and stamped *)

Lemma connected_or_not w : connected w ∨ not_connected w.
Proof.
  unfold connected, not_connected.
  destruct (db (this w)), (collectionRef (this w)); eauto.
Qed.


Lemma bind_ret_snd {A B} (m : M A) (f : A → B) w :
  (bind m (λ a, ret (f a)) w).2 = (m w).2.
Proof. unfold bind, ret. destruct (m w) as [[a | e] w']; reflexivity. Qed.


Lemma set_invariant env data w :
  connected w → keyed_by_id (docs w) → stamped_in_past env w →
  keyed_by_id (docs (set env data w).2) ∧ stamped_in_past env (set env data w).2.
Proof.
  intros Hc Hkey Hst. rewrite set_run by exact Hc. cbn [snd].
  destruct (issued_record_reserved env w data) as (Hid & _ & Hu).
  split.
  - intros k r. cbn [docs]. rewrite lookup_insert.
    case_decide as E; [| apply Hkey].
    intros [= <-]. subst k. split; [exact Hid | apply issued_id_nonempty].
  - intros k r. cbn [docs clock_reads]. rewrite lookup_insert.
    case_decide as E.
    + intros [= <-]. exists (S (S (clock_reads w))). split; [lia | exact Hu].
    + intros Hk. destruct (Hst k r Hk) as (i & Hi & Hs).
      exists i. split; [lia | exact Hs].
Qed.





Lemma empty_collection_invariant env t cs c r :
  let w := {| this := t; docs := ∅; calls := cs;
              clock_reads := c; random_reads := r |} in
  keyed_by_id (docs w) ∧ stamped_in_past env w.
Proof. split; intros k x Hk; cbn in Hk; by rewrite lookup_empty in Hk. Qed.

(** ** getOne: point lookup or first match *)

(** C4, as the code has it.  On a connected driver: when the query's
    [_id] is a document identifier (a non-empty string without a path
    separator), [getOne] issues one [getDoc] for that identifier and
    returns the document stored under it, or null, without consulting any
    other field of the query; when the query has no [_id], or a falsy one
    (the empty string, 0, false, null), [getOne] is [get(q)] followed by
    taking its first result, or null when there is none. *)
Theorem getOne_truthy_id_or_first_match q w :
  connected w →
  (∀ id, q !! "_id" = Some (VStr id) → id ≠ "" → has_slash id = false →
     getOne q w = (Ok (docs w !! id), after_call w (CGetDoc id)))
  ∧ (truthy (q !! "_id") = false →
     getOne q w = bind (get q) (λ results, ret (head results)) w).
Proof.
  intros Hc. split.
  - intros id Hq Hne _. apply getOne_by_id; assumption.
  - intros Hq. apply getOne_by_query; assumption.
Qed.

(** C4, as stated, fails on a query whose [_id] is the empty string: the
    driver then runs the filtered query [get(q)], with every field of [q]
    as a constraint, instead of a point lookup. *)
Lemma getOne_empty_id_is_not_point_lookup :
  ¬ looks_up_any_given_id {[ "_id" := VStr ""; "name" := VStr "a" ]}
      world_one_record.
Proof.
  intros H. destruct (H (VStr "")) as (id & Hid & Hrun); [by vm_compute |].
  injection Hid as <-.
  apply (f_equal (λ p, calls p.2)) in Hrun. vm_compute in Hrun.
  discriminate Hrun.
Qed.

(** On a collection that holds a document whose [_id] field is empty, the
    same query returns that document, which no lookup by identifier
    reaches. *)
Example getOne_empty_id_returns_filtered_match :
  (getOne {[ "_id" := VStr "" ]} world_foreign_record).1
    = Ok (Some {[ "_id" := VStr ""; "name" := VStr "a" ]})
  ∧ docs world_foreign_record !! "" = None.
Proof. split; vm_compute; reflexivity. Qed.

(** ** Identifier collisions *)

Lemma pretty_N_go_no_separator (x : N) :
  ∀ s, has_separator s = false → has_separator (pretty_N_go x s) = false.
Proof.
  induction (N.lt_wf_0 x) as [x _ IH]; intros s Hs.
  assert (x = 0 ∨ 0 < x)%N as [-> | Hpos] by lia.
  - rewrite pretty_N_go_0. exact Hs.
  - rewrite pretty_N_go_step by exact Hpos. apply IH.
    + by apply N.div_lt.
    + cbn [has_separator]. rewrite Hs, orb_false_r.
      unfold pretty_N_char. by repeat case_match.
Qed.

Lemma pretty_Z_no_separator (z : Z) : has_separator (pretty z) = false.
Proof.
  assert (∀ n : N, has_separator (pretty n) = false) as HN.
  { intros n. unfold pretty, pretty_N. case_decide; [reflexivity |].
    by apply pretty_N_go_no_separator. }
  destruct z as [| p | p]; [reflexivity | apply (HN (Npos p)) |].
  change (pretty (Z.neg p)) with ("-" +:+ pretty (Npos p)).
  cbn. apply (HN (Npos p)).
Qed.

Lemma split_at_separator (x y s1 s2 : string) :
  has_separator x = false → has_separator y = false →
  x ++ "_" ++ s1 = y ++ "_" ++ s2 → x = y ∧ s1 = s2.
Proof.
  revert y. induction x as [| c x IH]; intros [| c' y] Hx Hy E; cbn in *.
  - by simplify_eq.
  - injection E as <- _. apply orb_false_elim in Hy as [Hy _]. discriminate.
  - injection E as -> _. apply orb_false_elim in Hx as [Hx _]. discriminate.
  - injection E as <- E.
    apply orb_false_elim in Hx as [_ Hx]. apply orb_false_elim in Hy as [_ Hy].
    destruct (IH y Hx Hy E) as [-> ->]. done.
Qed.

(** Two generated ids coincide only when both the clock reading and the
    thirteen characters kept of the random fraction coincide. *)
Lemma issued_id_inj env w1 w2 :
  issued_id env w1 = issued_id env w2 →
  now_at env (clock_reads w1) = now_at env (clock_reads w2)
  ∧ String.substring 2 13 (random_at env (random_reads w1))
    = String.substring 2 13 (random_at env (random_reads w2)).
Proof.
  unfold issued_id. intros E.
  apply split_at_separator in E as [E1 E2]; try apply pretty_Z_no_separator.
  split; [| exact E2]. by apply (inj pretty).
Qed.

(** C5 fails on the code.  [generateId] joins the clock reading and a
    random suffix and [set] writes under the result without looking at
    what is stored.  Two [set] calls made within the same millisecond for
    which [Math.random()] yields the same fraction get the same id, and
    the second record replaces the first: after two successful calls the
    collection holds one record.  The clock of this run never goes
    backwards. *)
Theorem set_same_draw_overwrites :
  clock_monotone env_tie
  ∧ ∃ r1 r2 w1 w2,
      set env_tie {[ "name" := VStr "a" ]} world_connected = (Ok r1, w1)
      ∧ set env_tie {[ "name" := VStr "b" ]} w1 = (Ok r2, w2)
      ∧ r1 !! "_id" = Some (VStr "1700000000000_4fzyo82mvyr")
      ∧ r2 !! "_id" = Some (VStr "1700000000000_4fzyo82mvyr")
      ∧ r1 !! "name" = Some (VStr "a")
      ∧ r2 !! "name" = Some (VStr "b")
      ∧ docs w1 !! "1700000000000_4fzyo82mvyr" = Some r1
      ∧ docs w2 !! "1700000000000_4fzyo82mvyr" = Some r2
      ∧ size (docs w2) = 1%nat.
Proof.
  split; [intros i j _; cbn; lia |].
  eexists _, _, _, _.
  split; [vm_compute; reflexivity |].
  split; [vm_compute; reflexivity |].
  repeat split; vm_compute; reflexivity.
Qed.

(** ** The statements at concrete worlds *)

Example scenario_run :
  (scenario world0).1
  = Ok (one_record, 1%nat,
        Some (<["_updatedAt" := VStr "2023-11-14T22:13:20.003Z"]>
                (<["name" := VStr "b"]> one_record)),
        1%nat, None)
  ∧ docs (scenario world0).2 = ∅.
Proof. split; vm_compute; reflexivity. Qed.

Lemma world_connected_connected : connected world_connected.
Proof. split; cbn; eauto. Qed.

Lemma world_one_record_connected : connected world_one_record.
Proof. split; vm_compute; eauto. Qed.

Lemma world_one_record_docs :
  docs world_one_record = {[ id_one_record := one_record ]}.
Proof. vm_compute. reflexivity. Qed.

Lemma world_one_record_keyed : keyed_by_id (docs world_one_record).
Proof.
  rewrite world_one_record_docs.
  intros k r [<- <-]%lookup_singleton_Some. split; [by vm_compute | done].
Qed.


Lemma not_connected_fails_witness :
  not_connected world0
  ∧ run_all env0 every_operation world0
      = (map (λ _, Err NotConnected) every_operation, world0)
  ∧ run_all env0 every_operation (disconnect world_one_record).2
      = (map (λ _, Err NotConnected) every_operation,
         (disconnect world_one_record).2).
Proof.
  assert (not_connected world0) as H by (left; reflexivity).
  assert (not_connected (disconnect world_one_record).2) as H'
    by (left; reflexivity).
  split; [exact H |]. split.
  - exact (not_connected_fails env0 world0 every_operation H).
  - exact (not_connected_fails env0 _ every_operation H').
Defined.

Lemma set_persists_and_returns_record_witness :
  connected world_connected
  ∧ (set env0 {[ "name" := VStr "a" ]} world_connected).1 = Ok one_record
  ∧ docs (set env0 {[ "name" := VStr "a" ]} world_connected).2
      = {[ id_one_record := one_record ]}.
Proof.
  pose proof world_connected_connected as H.
  destruct (set_persists_and_returns_record env0 world_connected
              {[ "name" := VStr "a" ]} H) as (Hret & Hdocs & _).
  split; [exact H |]. split.
  - rewrite Hret. vm_compute. reflexivity.
  - rewrite Hdocs. vm_compute. reflexivity.
Defined.

Lemma set_ignores_reserved_fields_witness :
  connected world_connected
  ∧ set env0 {[ "_id" := VStr "mine"; "_createdAt" := VNum 0;
                "_updatedAt" := VNull; "name" := VStr "a" ]} world_connected
    = set env0 {[ "name" := VStr "a" ]} world_connected.
Proof.
  pose proof world_connected_connected as H.
  split; [exact H |].
  destruct (set_ignores_reserved_fields env0 world_connected
              {[ "_id" := VStr "mine"; "_createdAt" := VNum 0;
                 "_updatedAt" := VNull; "name" := VStr "a" ]} H) as [-> _].
  vm_compute. reflexivity.
Defined.

Lemma set_then_getOne_roundtrip_witness :
  connected world_connected
  ∧ ∃ record id w',
      set env0 {[ "name" := VStr "a" ]} world_connected = (Ok record, w')
      ∧ record !! "_id" = Some (VStr id)
      ∧ (getOne {[ "_id" := VStr id ]} w').1 = Ok (Some record).
Proof.
  pose proof world_connected_connected as H.
  split; [exact H |].
  exact (set_then_getOne_roundtrip env0 world_connected {[ "name" := VStr "a" ]} H).
Defined.

Lemma getOne_truthy_id_or_first_match_witness :
  connected world_one_record
  ∧ getOne {[ "_id" := VStr id_one_record; "name" := VStr "other" ]}
      world_one_record
    = (Ok (Some one_record),
       after_call world_one_record (CGetDoc id_one_record)).
Proof.
  pose proof world_one_record_connected as H.
  split; [exact H |].
  destruct (getOne_truthy_id_or_first_match
              {[ "_id" := VStr id_one_record; "name" := VStr "other" ]}
              world_one_record H) as [Hpoint _].
  rewrite (Hpoint id_one_record);
    [| by vm_compute | discriminate | by vm_compute].
  vm_compute. reflexivity.
Defined.


Lemma not_shadowed_decide (d : Data) f :
  bool_decide (map_Forall (λ k _, k = f ∨ head (field_path k) ≠ Some f) d)
    = true →
  ¬ shadowed_in d f.
Proof.
  intros H%bool_decide_eq_true_1 (k & [v Hk] & Hkf & Hhead).
  destruct (H k v Hk); done.
Qed.


Lemma update_overwrites_createdAt_witness :
  connected world_one_record
  ∧ keyed_by_id (docs world_one_record)
  ∧ docs world_one_record !! id_one_record = Some one_record
  ∧ matches (map_to_list (∅ : Query)) one_record = true
  ∧ ∃ n w' r',
      update env0 ∅ {[ "_createdAt" := VStr "1999-01-01T00:00:00.000Z" ]}
        world_one_record = (Ok n, w')
      ∧ docs w' !! id_one_record = Some r'
      ∧ r' !! "_createdAt" = Some (VStr "1999-01-01T00:00:00.000Z").
Proof.
  pose proof world_one_record_connected as H.
  pose proof world_one_record_keyed as K.
  assert (docs world_one_record !! id_one_record = Some one_record) as Hk
    by (by vm_compute).
  assert (matches (map_to_list (∅ : Query)) one_record = true) as Hm
    by (by vm_compute).
  split; [exact H |]. split; [exact K |]. split; [exact Hk |].
  split; [exact Hm |].
  destruct (update_overwrites_createdAt env0 ∅
              {[ "_createdAt" := VStr "1999-01-01T00:00:00.000Z" ]}
              world_one_record id_one_record one_record H K Hk Hm)
    as (n & w' & r' & Hrun & Hk' & _ & _ & Hcreated).
  exists n, w', r'. split; [exact Hrun |]. split; [exact Hk' |].
  apply Hcreated; [by vm_compute |].
  apply not_shadowed_decide. vm_compute. reflexivity.
Defined.



(** * Further properties of the driver *)

(** ** What the data operations leave alone *)

Lemma bind_keeps_this {A B} (m : M A) (k : A → M B) :
  (∀ w, this (m w).2 = this w) → (∀ a w, this (k a w).2 = this w) →
  ∀ w, this (bind m k w).2 = this w.
Proof.
  intros Hm Hk w. unfold bind. specialize (Hm w).
  destruct (m w) as [[a | e] w']; cbn in *; [| exact Hm].
  rewrite Hk. exact Hm.
Qed.

Lemma for_of_keeps_this {A S} (body : A → S → M S) (xs : list A) :
  (∀ x s w, this (body x s w).2 = this w) →
  ∀ s w, this (for_of xs body s w).2 = this w.
Proof.
  intros Hb. induction xs as [| x xs IH]; intros s w; [reflexivity |].
  cbn [for_of]. apply bind_keeps_this; [apply Hb | apply IH].
Qed.

Lemma ensureConnected_keeps_this w : this (ensureConnected w).2 = this w.
Proof.
  unfold ensureConnected.
  destruct (db (this w)), (collectionRef (this w)); reflexivity.
Qed.

Lemma doc_keeps_this id w : this (doc id w).2 = this w.
Proof.
  destruct id as [[| b | z | s | m] |]; try reflexivity.
  cbn. destruct (String.eqb s ""); reflexivity.
Qed.

Lemma updateDoc_keeps_this k u w : this (updateDoc k u w).2 = this w.
Proof.
  unfold updateDoc, bind, log, read_docs. cbn.
  destruct (docs w !! k); reflexivity.
Qed.

Ltac keeps_this_step :=
  first
    [ apply ensureConnected_keeps_this
    | apply doc_keeps_this
    | apply updateDoc_keeps_this
    | apply for_of_keeps_this; intros
    | apply bind_keeps_this; intros
    | reflexivity ].

Ltac keeps_this := repeat keeps_this_step.

Lemma get_keeps_this q w : this (get q w).2 = this w.
Proof.
  revert w. unfold get.
  destruct (length (map_to_list q) =? 0)%nat; keeps_this.
Qed.

Lemma exec_keeps_this env o w : this (exec env o w).2 = this w.
Proof.
  revert w. destruct o as [d | q | q | q d | q | q | q |]; cbn [exec];
    unfold set, getOne, update, update_each, delete_, delete_each, exists_,
      getOne, count, clear, delete_, delete_each, generateId,
      new_Date_toISOString;
    repeat match goal with
           | |- context [if truthy ?b then _ else _] => destruct (truthy b)
           end;
    repeat first [ apply get_keeps_this | progress keeps_this_step ].
Qed.

(** X1. No data operation connects or disconnects the driver: whatever
    operations run, in whatever state and whether they succeed or throw,
    the driver's handles, collection name and configuration are the ones
    it had. *)
Theorem data_operations_keep_connection env ops :
  ∀ w, this (run_all env ops w).2 = this w.
Proof.
  induction ops as [| o ops IH]; intros w; [reflexivity |].
  cbn [run_all]. pose proof (exec_keeps_this env o w) as Ho.
  destruct (exec env o w) as [r w']. specialize (IH w').
  destruct (run_all env ops w') as [rs w'']. cbn in *. congruence.
Qed.

Lemma get_same_store q w :
  docs (get q w).2 = docs w ∧ clock_reads (get q w).2 = clock_reads w
  ∧ random_reads (get q w).2 = random_reads w.
Proof.
  destruct (connected_or_not w) as [Hc | Hn].
  - rewrite get_run by exact Hc. done.
  - unfold get. rewrite guarded_not_connected by exact Hn. done.
Qed.

Lemma getOne_same_counters q w :
  docs (getOne q w).2 = docs w ∧ clock_reads (getOne q w).2 = clock_reads w
  ∧ random_reads (getOne q w).2 = random_reads w.
Proof.
  destruct (connected_or_not w) as [Hc | Hn].
  - unfold getOne. rewrite guarded_connected by exact Hc.
    destruct (truthy (q !! "_id")).
    + destruct (q !! "_id") as [[| b | z | s | m] |]; cbn; try done.
      destruct (String.eqb s ""); cbn; done.
    + erewrite bind_Ok by (apply get_run, Hc). done.
  - unfold getOne. rewrite guarded_not_connected by exact Hn. done.
Qed.

(** X2. The four reading operations never write: after [get], [getOne],
    [exists] or [count], in any state and whether the call succeeds or
    throws, the collection holds the same documents and neither the clock
    nor the random source has been read. *)
Theorem reading_operations_do_not_write q w :
  let same (w' : World) :=
    docs w' = docs w ∧ clock_reads w' = clock_reads w
    ∧ random_reads w' = random_reads w in
  same (get q w).2 ∧ same (getOne q w).2
  ∧ same (exists_ q w).2 ∧ same (count q w).2.
Proof.
  cbn zeta. split; [apply get_same_store |].
  split; [apply getOne_same_counters |].
  destruct (connected_or_not w) as [Hc | Hn].
  - unfold exists_, count. rewrite !guarded_connected by exact Hc.
    rewrite !bind_ret_snd. split; [apply getOne_same_counters |].
    apply get_same_store.
  - unfold exists_, count. rewrite !guarded_not_connected by exact Hn. done.
Qed.

(** ** get *)

Lemma matches_agrees q r : matches (map_to_list q) r = true ↔ agrees q r.
Proof.
  unfold matches, agrees. rewrite forallb_forall. split.
  - intros H key v Hq. specialize (H (key, v)).
    unfold satisfies in H. cbn in H. eapply bool_decide_eq_true_1, H.
    apply list_elem_of_In, elem_of_map_to_list, Hq.
  - intros H [key v] Hin. unfold satisfies. cbn. apply bool_decide_eq_true_2.
    apply H. apply elem_of_map_to_list, list_elem_of_In, Hin.
Qed.

(** X3. On a connected driver and for a query whose field names are
    well-formed paths, [get(q)] issues one filtered read and returns
    exactly the stored documents in which every path [q] names leads to
    the value [q] gives: each returned record is stored and agrees, and
    each stored document that agrees is returned.  With the empty query
    it returns as many records as the collection holds. *)
Theorem get_returns_exactly_the_agreeing_records q w :
  connected w → well_formed_query q →
  ∃ rs,
    get q w = (Ok rs, after_call w (CGetDocs (map_to_list q)))
    ∧ (∀ r, In r rs ↔ (∃ k, docs w !! k = Some r) ∧ agrees q r)
    ∧ (length rs ≤ size (docs w))%nat
    ∧ (q = ∅ → length rs = size (docs w)).
Proof.
  intros Hc _. exists (selected q (docs w)).
  split; [apply get_run, Hc |]. split; [| split].
  - intros r. rewrite selected_In, matches_agrees. reflexivity.
  - unfold selected. etrans; [apply filter_length_le |].
    by rewrite length_snapshot_docs.
  - intros ->. by rewrite selected_empty_query, length_snapshot_docs.
Qed.

(** ** exists *)

Lemma exists_by_id q w id :
  connected w → q !! "_id" = Some (VStr id) → id ≠ "" →
  (exists_ q w).1 = Ok (bool_decide (docs w !! id ≠ None)).
Proof.
  intros Hc Hq Hne. unfold exists_. rewrite guarded_connected by exact Hc.
  erewrite bind_Ok by (apply getOne_by_id; eassumption). reflexivity.
Qed.

(** X4. On a connected driver, when the query has no [_id] or a falsy
    one and its field names are well-formed paths, [exists(q)] is true
    exactly when [count(q)] is not zero, that is when some stored document
    agrees with [q]. *)
Theorem exists_without_id_agrees_with_count q w :
  connected w → truthy (q !! "_id") = false → well_formed_query q →
  ∃ b n,
    (exists_ q w).1 = Ok b ∧ (count q w).1 = Ok n
    ∧ (b = true ↔ n ≠ 0%nat)
    ∧ (b = true ↔ ∃ k r, docs w !! k = Some r ∧ agrees q r).
Proof.
  intros Hc Hq _.
  exists (bool_decide (head (selected q (docs w)) ≠ None)),
         (length (selected q (docs w))).
  split; [| split; [apply count_run, Hc |]].
  - assert (getOne q w = (Ok (head (selected q (docs w))),
                           after_call w (CGetDocs (map_to_list q)))) as Hone.
    { rewrite getOne_by_query by assumption.
      erewrite bind_Ok by (apply get_run, Hc). reflexivity. }
    unfold exists_. rewrite guarded_connected by exact Hc.
    erewrite bind_Ok by exact Hone. reflexivity.
  - rewrite bool_decide_eq_true.
    destruct (selected q (docs w)) as [| r rs] eqn:E; cbn.
    + split; [split; [done | lia] |]. split; [done |].
      intros (k & r & Hk & Ha).
      assert (In r (selected q (docs w))) as Hin.
      { apply selected_In. split; [eauto | by apply matches_agrees]. }
      rewrite E in Hin. destruct Hin.
    + split; [split; [lia | done] |]. split; [| done]. intros _.
      assert (In r (selected q (docs w))) as Hin by (rewrite E; by left).
      apply selected_In in Hin as [[k Hk] Hm]. exists k, r.
      split; [exact Hk | by apply matches_agrees].
Qed.

(** X5. With a non-empty string [_id] in the query, [exists] looks only
    at that identifier: on a connected driver and a collection keyed by
    [_id], if a document is stored under the id but disagrees with the
    query on some other field (the path the query names does not lead to
    the value it gives), [exists(q)] is true although [count(q)] is 0 and
    [get(q)] is empty. *)
Theorem exists_by_id_disregards_other_fields q w id r key v :
  connected w → keyed_by_id (docs w) →
  q !! "_id" = Some (VStr id) → docs w !! id = Some r →
  q !! key = Some v → get_path (field_path key) r ≠ Some v →
  (exists_ q w).1 = Ok true
  ∧ (count q w).1 = Ok 0%nat
  ∧ (get q w).1 = Ok [].
Proof.
  intros Hc Hkey Hq Hk Hqk Hrk.
  assert (id ≠ "") as Hne by (apply (Hkey id r Hk)).
  assert (selected q (docs w) = []) as Hnone.
  { destruct (selected q (docs w)) as [| r' rs] eqn:E; [reflexivity |].
    assert (In r' (selected q (docs w))) as Hin by (rewrite E; by left).
    apply selected_In in Hin as [[k' Hk'] Hm]. apply matches_agrees in Hm.
    destruct (Hkey k' r' Hk') as [Hid _].
    pose proof (Hm "_id" (VStr id) Hq) as Hid'. cbn in Hid'.
    rewrite Hid' in Hid. injection Hid as <-.
    rewrite Hk in Hk'. injection Hk' as <-.
    destruct (Hrk (Hm key v Hqk)). }
  split; [| split].
  - rewrite (exists_by_id q w id Hc Hq Hne), Hk. reflexivity.
  - destruct (count_run q w Hc) as [-> _]. by rewrite Hnone.
  - rewrite get_run by exact Hc. cbn. by rewrite Hnone.
Qed.

(** X6. A truthy [_id] that is not a string (a non-zero number, [true])
    makes [getOne] and [exists] throw when the document reference is
    built, before any request is sent: the world is left as it was. *)
Theorem getOne_rejects_non_string_id q w v :
  connected w → q !! "_id" = Some v → truthy (Some v) = true →
  (∀ s, v ≠ VStr s) →
  getOne q w = (Err (BackendFailure "invalid-argument"), w)
  ∧ exists_ q w = (Err (BackendFailure "invalid-argument"), w).
Proof.
  intros Hc Hq Ht Hv.
  assert (getOne q w = (Err (BackendFailure "invalid-argument"), w)) as Hone.
  { unfold getOne. rewrite guarded_connected by exact Hc. rewrite Hq, Ht.
    destruct v as [| b | z | s | m]; try reflexivity. destruct (Hv s eq_refl). }
  split; [exact Hone |].
  unfold exists_. rewrite guarded_connected by exact Hc.
  apply bind_Err, Hone.
Qed.

(** ** set and the size of the collection *)

(** X7. On a connected driver, [set] touches one document only, the one
    under the generated id.  If that id was free, the collection grows by
    one record (and [count({})] with it); if a document was already
    stored under it, [set] succeeds all the same, the collection keeps
    its size and that document is replaced by the new record. *)
Theorem set_adds_or_replaces_one_document env data w :
  connected w →
  let w' := (set env data w).2 in
  let id := issued_id env w in
  (∀ k, k ≠ id → docs w' !! k = docs w !! k)
  ∧ docs w' !! id = Some (issued_record env w data)
  ∧ (count ∅ w').1 = Ok (size (docs w'))
  ∧ (docs w !! id = None → size (docs w') = S (size (docs w)))
  ∧ (docs w !! id ≠ None → size (docs w') = size (docs w)).
Proof.
  intros Hc. cbn zeta. rewrite set_run by exact Hc. cbn [snd docs].
  split; [| split; [| split; [| split]]].
  - intros k Hk. by rewrite lookup_insert_ne.
  - by rewrite lookup_insert_eq.
  - match goal with |- (count ∅ ?x).1 = _ => set (w1 := x) end.
    assert (connected w1) as Hc1 by exact Hc.
    destruct (count_run ∅ w1 Hc1) as [-> _].
    by rewrite selected_empty_query, length_snapshot_docs.
  - intros Hfree. by apply map_size_insert_None.
  - intros Htaken. destruct (docs w !! issued_id env w) as [old |] eqn:E;
      [| done].
    by eapply map_size_insert_Some.
Qed.

(** ** generateId *)

(** X8. [generateId] never fails and never returns the empty string, and
    two of its results are equal exactly when they were built from the
    same clock reading and from random fractions with the same thirteen
    characters after the leading "0.". *)
Theorem generateId_equal_iff_same_draw env w1 w2 :
  (generateId env w1).1 = Ok (issued_id env w1)
  ∧ issued_id env w1 ≠ ""
  ∧ ((generateId env w1).1 = (generateId env w2).1 ↔
     now_at env (clock_reads w1) = now_at env (clock_reads w2)
     ∧ String.substring 2 13 (random_at env (random_reads w1))
       = String.substring 2 13 (random_at env (random_reads w2))).
Proof.
  split; [reflexivity |]. split; [apply issued_id_nonempty |].
  change ((generateId env w1).1) with (Ok (A := string) (issued_id env w1)).
  change ((generateId env w2).1) with (Ok (A := string) (issued_id env w2)).
  split.
  - intros [= E]. by apply issued_id_inj.
  - intros [E1 E2]. unfold issued_id. by rewrite E1, E2.
Qed.

(** ** update *)

Lemma for_of_ext {A S} (f g : A → S → M S) (xs : list A) :
  (∀ x s w, f x s w = g x s w) →
  ∀ s w, for_of xs f s w = for_of xs g s w.
Proof.
  intros Hfg. induction xs as [| x xs IH]; intros s w; [reflexivity |].
  cbn [for_of]. unfold bind. rewrite Hfg.
  destruct (g x s w) as [[s' | e] w']; [apply IH | reflexivity].
Qed.

(** X9. A caller-supplied [_id] or [_updatedAt] has no effect on
    [update]: in every state the call returns the same result, sends the
    same requests and leaves the same world as the call on the data with
    those two keys removed. *)
Theorem update_ignores_id_and_updatedAt env q data w :
  update env q data w
  = update env q (delete "_id" (delete "_updatedAt" data)) w.
Proof.
  assert (∀ r c w0, update_each env data r c w0
            = update_each env (delete "_id" (delete "_updatedAt" data)) r c w0)
    as Heach.
  { intros r c w0. unfold update_each, bind.
    destruct (doc (r !! "_id") w0) as [[k | e] w1]; [| reflexivity].
    destruct (new_Date_toISOString env w1) as [[t | e] w2]; [| reflexivity].
    assert (delete "_id" (<["_updatedAt" := VStr t]> data)
            = delete "_id" (<["_updatedAt" := VStr t]>
                (delete "_id" (delete "_updatedAt" data)))) as ->;
      [| reflexivity].
    apply map_eq. intros f.
    destruct (decide (f = "_id")) as [-> | ?]; [by simplify_map_eq |].
    destruct (decide (f = "_updatedAt")) as [-> | ?]; by simplify_map_eq. }
  unfold update, bind.
  destruct (ensureConnected w) as [[[] | e] w1]; [| reflexivity].
  destruct (get q w1) as [[rs | e] w2]; [| reflexivity].
  apply for_of_ext, Heach.
Qed.

(** X10. [update] neither creates nor removes documents: on a connected
    driver and a collection keyed by [_id], the collection has the same
    identifiers after the call as before, and [count({})] is unchanged. *)
Theorem update_keeps_the_identifiers env q data w :
  connected w → keyed_by_id (docs w) →
  let w' := (update env q data w).2 in
  dom (docs w') = dom (docs w)
  ∧ size (docs w') = size (docs w)
  ∧ (count ∅ w').1 = (count ∅ w).1.
Proof.
  intros Hc Hkey. cbn zeta.
  destruct (update_run env q data w Hc Hkey)
    as (w' & Hrun & Hthis & _ & Habsent & Hframe & Hupd).
  rewrite Hrun. cbn [snd].
  assert (dom (docs w') = dom (docs w)) as Hdom.
  { apply set_eq. intros k. rewrite !elem_of_dom.
    destruct (docs w !! k) as [r |] eqn:Hk.
    - destruct (matches (map_to_list q) r) eqn:Hm.
      + destruct (Hupd k r Hk Hm) as (t & _ & ->). split; eauto.
      + rewrite (Hframe k r Hk Hm). split; eauto.
    - rewrite (Habsent k Hk). reflexivity. }
  assert (size (docs w') = size (docs w)) as Hsize.
  { by rewrite <- !size_dom, Hdom. }
  split; [exact Hdom |]. split; [exact Hsize |].
  assert (connected w') as Hc' by (unfold connected; rewrite Hthis; exact Hc).
  destruct (count_run ∅ w' Hc') as [-> _].
  destruct (count_run ∅ w Hc) as [-> _].
  rewrite !selected_empty_query, !length_snapshot_docs.
  by rewrite Hsize.
Qed.

(** ** The invariant of the driver's own collections *)


(** ** Queries by identifier on a keyed collection *)

Lemma agrees_id q r id :
  agrees q r → q !! "_id" = Some (VStr id) → r !! "_id" = Some (VStr id).
Proof. intros Ha Hq. exact (Ha "_id" (VStr id) Hq). Qed.

Lemma selected_by_id d id :
  keyed_by_id d →
  selected {[ "_id" := VStr id ]} d
  = match d !! id with Some r => [r] | None => [] end.
Proof.
  intros Hkey.
  assert (∀ r, In r (selected {[ "_id" := VStr id ]} d) ↔ d !! id = Some r)
    as Hin.
  { intros r. rewrite selected_In, matches_agrees. split.
    - intros [[k Hk] Ha]. destruct (Hkey k r Hk) as [Hid _].
      rewrite (agrees_id _ r id Ha) in Hid by (by simplify_map_eq).
      by simplify_eq.
    - intros Hk. split; [eauto |]. intros key v Hq.
      apply lookup_singleton_Some in Hq as [<- <-]. apply (Hkey id r Hk). }
  pose proof (selected_NoDup_ids {[ "_id" := VStr id ]} d Hkey) as Hnd.
  destruct (selected {[ "_id" := VStr id ]} d) as [| r1 [| r2 rs]] eqn:E.
  - destruct (d !! id) as [r |] eqn:Hk; [| reflexivity].
    destruct (proj2 (Hin r) eq_refl).
  - rewrite (proj1 (Hin r1) (or_introl eq_refl)). reflexivity.
  - pose proof (proj1 (Hin r1) (or_introl eq_refl)) as H1.
    pose proof (proj1 (Hin r2) (or_intror (or_introl eq_refl))) as H2.
    assert (r1 = r2) as -> by congruence.
    cbn [map] in Hnd. apply NoDup_cons in Hnd as [Hnotin _].
    destruct Hnotin. by left.
Qed.

(** X12. On a connected driver and a collection keyed by [_id], the two
    branches of [getOne] agree on a query that names only a non-empty
    [_id]: the point lookup returns what the first result of the filtered
    read [get] is, the record stored under that id or null. *)
Theorem getOne_by_id_agrees_with_get w id :
  connected w → keyed_by_id (docs w) → id ≠ "" →
  (getOne {[ "_id" := VStr id ]} w).1 = Ok (docs w !! id)
  ∧ (get {[ "_id" := VStr id ]} w).1
    = Ok (match docs w !! id with Some r => [r] | None => [] end)
  ∧ (getOne {[ "_id" := VStr id ]} w).1
    = (bind (get {[ "_id" := VStr id ]}) (λ rs, ret (head rs)) w).1.
Proof.
  intros Hc Hkey Hne.
  assert ((getOne {[ "_id" := VStr id ]} w).1 = Ok (docs w !! id)) as Hone.
  { rewrite (getOne_by_id _ w id); [reflexivity | exact Hc | | exact Hne].
    by simplify_map_eq. }
  assert (get {[ "_id" := VStr id ]} w
          = (Ok (match docs w !! id with Some r => [r] | None => [] end),
             after_call w (CGetDocs (map_to_list ({[ "_id" := VStr id ]} : Query)))))
    as Hget.
  { rewrite get_run by exact Hc. by rewrite selected_by_id. }
  split; [exact Hone |]. split; [by rewrite Hget |].
  rewrite Hone. erewrite bind_Ok by exact Hget. cbn.
  by destruct (docs w !! id).
Qed.

(** X13. On a connected driver and a collection keyed by [_id],
    [delete({_id: id})] removes the document stored under [id] and no
    other, and returns 1 if there was one and 0 otherwise; afterwards
    [getOne({_id: id})] returns null. *)
Theorem delete_by_id_removes_that_document w id :
  connected w → keyed_by_id (docs w) → id ≠ "" →
  ∃ w',
    delete_ {[ "_id" := VStr id ]} w
      = (Ok (match docs w !! id with Some _ => 1%nat | None => 0%nat end), w')
    ∧ docs w' = delete id (docs w)
    ∧ (getOne {[ "_id" := VStr id ]} w').1 = Ok None.
Proof.
  intros Hc Hkey Hne.
  destruct (delete_run {[ "_id" := VStr id ]} w Hc Hkey)
    as (w' & Hrun & Hthis & _ & Habsent & Hframe & Hdel).
  rewrite selected_by_id in Hrun by exact Hkey.
  assert (docs w' = delete id (docs w)) as Hdocs.
  { apply map_eq. intros k. destruct (decide (k = id)) as [-> | Hk].
    - rewrite lookup_delete_eq. destruct (docs w !! id) as [r |] eqn:E.
      + apply (Hdel id r E). apply matches_agrees. intros key v Hq.
        apply lookup_singleton_Some in Hq as [<- <-]. apply (Hkey id r E).
      + exact (Habsent id E).
    - rewrite lookup_delete_ne by done.
      destruct (docs w !! k) as [r |] eqn:E; [| exact (Habsent k E)].
      apply (Hframe k r E). apply not_true_is_false. intros Hm.
      apply matches_agrees in Hm. destruct (Hkey k r E) as [Hid _].
      rewrite (agrees_id _ r id Hm) in Hid by (by simplify_map_eq).
      by simplify_eq. }
  exists w'. split; [| split; [exact Hdocs |]].
  - rewrite Hrun. by destruct (docs w !! id).
  - assert (connected w') as Hc' by (unfold connected; rewrite Hthis; exact Hc).
    rewrite (getOne_by_id _ w' id); [| exact Hc' | by simplify_map_eq | exact Hne].
    cbn. by rewrite Hdocs, lookup_delete_eq.
Qed.

(** X14. On a connected driver and a collection keyed by [_id], for a
    query whose field names are well-formed paths, [delete(q)] returns
    the number of records [count(q)] saw, removes every record agreeing
    with [q] and keeps the others; [get(q)] is then empty and a second
    [delete(q)] returns 0 and changes nothing. *)
Theorem delete_then_nothing_matches q w :
  connected w → keyed_by_id (docs w) → well_formed_query q →
  ∃ n w',
    delete_ q w = (Ok n, w')
    ∧ (count q w).1 = Ok n
    ∧ (∀ k r, docs w' !! k = Some r ↔ docs w !! k = Some r ∧ ¬ agrees q r)
    ∧ (get q w').1 = Ok []
    ∧ (delete_ q w').1 = Ok 0%nat
    ∧ docs (delete_ q w').2 = docs w'.
Proof.
  intros Hc Hkey _.
  destruct (delete_run q w Hc Hkey)
    as (w' & Hrun & Hthis & _ & Habsent & Hframe & Hdel).
  assert (connected w') as Hc' by (unfold connected; rewrite Hthis; exact Hc).
  assert (∀ k r, docs w' !! k = Some r ↔ docs w !! k = Some r ∧ ¬ agrees q r)
    as Hdocs.
  { intros k r. rewrite <- matches_agrees. split.
    - intros Hk'. destruct (docs w !! k) as [r0 |] eqn:E.
      + destruct (matches (map_to_list q) r0) eqn:Hm.
        * rewrite (Hdel k r0 E Hm) in Hk'. discriminate.
        * rewrite (Hframe k r0 E Hm) in Hk'. injection Hk' as <-.
          split; [reflexivity | congruence].
      + rewrite (Habsent k E) in Hk'. discriminate.
    - intros [Hk Hm]. apply (Hframe k r Hk). by apply not_true_is_false. }
  assert (selected q (docs w') = []) as Hnone.
  { destruct (selected q (docs w')) as [| r rs] eqn:E; [reflexivity |].
    assert (In r (selected q (docs w'))) as Hin by (rewrite E; by left).
    apply selected_In in Hin as [[k Hk] Hm].
    apply Hdocs in Hk as [_ Hna]. destruct Hna. by apply matches_agrees. }
  exists (length (selected q (docs w))), w'.
  split; [exact Hrun |]. split; [apply count_run, Hc |].
  split; [exact Hdocs |]. split; [| split].
  - rewrite get_run by exact Hc'. cbn. by rewrite Hnone.
  - unfold delete_. rewrite guarded_connected by exact Hc'.
    erewrite bind_Ok by (apply get_run, Hc'). by rewrite Hnone.
  - unfold delete_. rewrite guarded_connected by exact Hc'.
    erewrite bind_Ok by (apply get_run, Hc'). by rewrite Hnone.
Qed.

(** ** Records that cannot be addressed, and the requests sent *)

Lemma for_of_app {A S} (body : A → S → M S) (xs ys : list A) :
  ∀ s w, for_of (xs ++ ys) body s w
         = bind (for_of xs body s) (λ s', for_of ys body s') w.
Proof.
  induction xs as [| x xs IH]; intros s w; [reflexivity |].
  change ((x :: xs) ++ ys)%list with (x :: (xs ++ ys))%list.
  cbn [for_of]. unfold bind.
  destruct (body x s w) as [[s' | e] w']; [| reflexivity].
  specialize (IH s' w'). unfold bind in IH. exact IH.
Qed.

Lemma record_id_of r k : r !! "_id" = Some (VStr k) → record_id r = k.
Proof. unfold record_id. by intros ->. Qed.

Lemma doc_rejects_unaddressable r w :
  record_id r = "" →
  doc (r !! "_id") w = (Err (BackendFailure "invalid-argument"), w).
Proof.
  unfold record_id. destruct (r !! "_id") as [[| b | z | s | m] |];
    try reflexivity.
  by intros ->.
Qed.

(** X15. [delete] has no rollback.  On a connected driver, if the records
    selected by [q] are some addressable records followed by one whose
    [_id] is missing, empty or not a string, [delete(q)] throws when it
    reaches that record: the records before it are already deleted, the
    documents of the others are kept, and no count is returned. *)
Theorem delete_stops_at_unaddressable_record q w good bad rest :
  connected w →
  selected q (docs w) = (good ++ bad :: rest)%list →
  (∀ r, In r good → ∃ k, r !! "_id" = Some (VStr k) ∧ k ≠ "") →
  record_id bad = "" →
  ∃ w',
    delete_ q w = (Err (BackendFailure "invalid-argument"), w')
    ∧ (∀ r, In r good → docs w' !! record_id r = None)
    ∧ (∀ k, (∀ r, In r good → record_id r ≠ k) → docs w' !! k = docs w !! k).
Proof.
  intros Hc Hsel Hgood Hbad.
  set (w0 := after_call w (CGetDocs (map_to_list q))).
  destruct (delete_loop good 0%nat w0 Hgood)
    as (w' & Hrun & _ & _ & Hframe & Hdel).
  exists w'. split; [| split].
  - unfold delete_. rewrite guarded_connected by exact Hc.
    erewrite bind_Ok by (apply get_run, Hc). rewrite Hsel, for_of_app.
    erewrite bind_Ok by exact Hrun. cbn [for_of].
    apply bind_Err. unfold delete_each. apply bind_Err.
    apply doc_rejects_unaddressable, Hbad.
  - intros r Hr. destruct (Hgood r Hr) as (k & Hid & _).
    rewrite (record_id_of r k Hid). exact (Hdel r k Hr Hid).
  - intros k Hk. rewrite Hframe; [reflexivity |].
    intros r Hr Hid. apply (Hk r Hr). exact (record_id_of r k Hid).
Qed.

Lemma delete_loop_calls records :
  ∀ c w,
    (∀ r, In r records → ∃ k, r !! "_id" = Some (VStr k) ∧ k ≠ "") →
    calls (for_of records delete_each c w).2
    = (calls w ++ map (λ r, CDeleteDoc (record_id r)) records)%list.
Proof.
  induction records as [| r rs IH]; intros c w Hin.
  - cbn. by rewrite app_nil_r.
  - destruct (Hin r (or_introl eq_refl)) as (k & Hid & Hne).
    cbn [for_of]. erewrite bind_Ok by (apply delete_each_run; eassumption).
    rewrite IH by (intros r' Hr'; apply Hin; by right).
    cbn [calls map]. rewrite (record_id_of r k Hid), <- app_assoc. reflexivity.
Qed.

Lemma delete_loop_counters records :
  ∀ c w,
    clock_reads (for_of records delete_each c w).2 = clock_reads w
    ∧ random_reads (for_of records delete_each c w).2 = random_reads w.
Proof.
  induction records as [| r rs IH]; intros c w; [done |].
  assert (clock_reads (delete_each r c w).2 = clock_reads w
          ∧ random_reads (delete_each r c w).2 = random_reads w) as Heach.
  { unfold delete_each.
    destruct (r !! "_id") as [[| b | z | s | m] |]; cbn; try done.
    destruct (String.eqb s ""); cbn; done. }
  cbn [for_of]. unfold bind.
  destruct (delete_each r c w) as [[c' | e] w1]; cbn [snd] in *;
    [| exact Heach].
  destruct (IH c' w1) as [-> ->]. exact Heach.
Qed.

(** X16. On a connected driver and a collection keyed by [_id],
    [delete(q)] sends one filtered read followed by exactly one
    [deleteDoc] per selected record, in the order of the result and
    addressed by the record's [_id]; it reads neither the clock nor the
    random source. *)
Theorem delete_sends_one_request_per_record q w :
  connected w → keyed_by_id (docs w) →
  let w' := (delete_ q w).2 in
  calls w'
    = (calls w ++ CGetDocs (map_to_list q)
         :: map (λ r, CDeleteDoc (record_id r)) (selected q (docs w)))%list
  ∧ clock_reads w' = clock_reads w
  ∧ random_reads w' = random_reads w.
Proof.
  intros Hc Hkey. cbn zeta.
  assert (∀ r, In r (selected q (docs w)) →
            ∃ k, r !! "_id" = Some (VStr k) ∧ k ≠ "") as Hids.
  { intros r Hr.
    destruct (selected_keyed q (docs w) r Hkey Hr) as (k & ? & ? & _). eauto. }
  split.
  - unfold delete_. rewrite guarded_connected by exact Hc.
    erewrite bind_Ok by (apply get_run, Hc).
    rewrite delete_loop_calls by exact Hids. cbn [calls].
    rewrite <- app_assoc. reflexivity.
  - unfold delete_. rewrite guarded_connected by exact Hc.
    erewrite bind_Ok by (apply get_run, Hc).
    apply (delete_loop_counters (selected q (docs w)) 0%nat
             (after_call w (CGetDocs (map_to_list q)))).
Qed.

Lemma update_loop_calls env data records :
  ∀ c w,
    (∀ r, In r records →
       ∃ k, r !! "_id" = Some (VStr k) ∧ k ≠ "" ∧ docs w !! k = Some r) →
    NoDup (map (λ r : Data, r !! "_id") records) →
    calls (for_of records (update_each env data) c w).2
    = (calls w
       ++ imap (λ i r, CUpdateDoc (record_id r)
                         (updateData env data (clock_reads w + i)))
            records)%list.
Proof.
  induction records as [| r rs IH]; intros c w Hin Hnd.
  - cbn. by rewrite app_nil_r.
  - destruct (Hin r (or_introl eq_refl)) as (k & Hid & Hne & Hk).
    cbn [map] in Hnd. apply NoDup_cons in Hnd as [Hfresh Hnd].
    cbn [for_of]. erewrite bind_Ok by (apply update_each_run; eassumption).
    rewrite IH; [| | exact Hnd].
    + cbn [calls clock_reads imap]. rewrite <- app_assoc. cbn [app].
      rewrite Nat.add_0_r, (record_id_of r k Hid). do 2 f_equal.
      apply imap_ext. intros i r' _. cbn. do 2 f_equal. lia.
    + intros r' Hr'.
      destruct (Hin r' (or_intror Hr')) as (k' & Hid' & Hne' & Hk').
      exists k'. repeat split; try assumption.
      cbn [docs]. rewrite lookup_insert_ne; [exact Hk' |].
      intros ->. apply Hfresh. rewrite list_elem_of_In, in_map_iff.
      exists r'. split; [congruence | exact Hr'].
Qed.

(** X17. On a connected driver and a collection keyed by [_id],
    [update(q, d)] sends one filtered read followed by exactly one
    [updateDoc] per selected record, in the order of the result; each
    carries [d] without [_id] and with an [_updatedAt] stamped by its own
    clock read, so the clock is read once per record. *)
Theorem update_sends_one_request_per_record env q data w :
  connected w → keyed_by_id (docs w) →
  let w' := (update env q data w).2 in
  calls w'
    = (calls w ++ CGetDocs (map_to_list q)
         :: imap (λ i r, CUpdateDoc (record_id r)
                           (updateData env data (clock_reads w + i)))
              (selected q (docs w)))%list
  ∧ clock_reads w' = (clock_reads w + length (selected q (docs w)))%nat.
Proof.
  intros Hc Hkey. cbn zeta. split.
  - unfold update. rewrite guarded_connected by exact Hc.
    erewrite bind_Ok by (apply get_run, Hc).
    rewrite update_loop_calls.
    + cbn [calls clock_reads]. rewrite <- app_assoc. reflexivity.
    + intros r Hr. exact (selected_keyed q (docs w) r Hkey Hr).
    + apply selected_NoDup_ids, Hkey.
  - destruct (update_run env q data w Hc Hkey) as (w' & Hrun & _ & Hclock & _).
    rewrite Hrun. exact Hclock.
Qed.

(** ** connect, disconnect and the accessors *)

(** X18. After [connect()], in any state, the three accessors return the
    app built from the configured options, its Firestore handle and the
    reference of the configured collection; after [disconnect()] all
    three return null.  Neither call touches the collection, connecting
    twice is the same as connecting once, and a disconnection, any
    operations attempted while disconnected (all of which fail), and a new
    [connect()] bring the driver and the collection back exactly to the
    connected state they were in. *)
Theorem connection_lifecycle env ops w :
  let wc := (connect w).2 in
  let wd := (disconnect w).2 in
  (getApp wc).1 = Ok (Some {| app_options := firebaseConfig (this w) |})
  ∧ (getFirestore wc).1
    = Ok (Some {| firestore_app := {| app_options := firebaseConfig (this w) |} |})
  ∧ (getCollectionRef wc).1
    = Ok (Some {| collection_path := collectionName (this w) |})
  ∧ (getApp wd).1 = Ok None
  ∧ (getFirestore wd).1 = Ok None
  ∧ (getCollectionRef wd).1 = Ok None
  ∧ docs wc = docs w ∧ docs wd = docs w
  ∧ (connect wc).2 = wc
  ∧ (run_all env ops (disconnect wc).2).1 = map (λ _, Err NotConnected) ops
  ∧ (connect (run_all env ops (disconnect wc).2).2).2 = wc.
Proof.
  cbn zeta.
  assert (run_all env ops (disconnect (connect w).2).2
          = (map (λ _, Err NotConnected) ops, (disconnect (connect w).2).2))
    as Hrun.
  { induction ops as [| o ops IH]; [reflexivity |].
    cbn [run_all map]. rewrite exec_not_connected by (left; reflexivity).
    rewrite IH. reflexivity. }
  rewrite Hrun. repeat split.
Qed.

(** ** update by identifier *)

(** X19. On a connected driver and a collection keyed by [_id],
    [update({_id: id}, d)] returns 1 and writes the fields of [d] (without
    [_id], with a fresh [_updatedAt]), each at its path, into the document
    stored under [id] if there is one, and returns 0 otherwise; no other
    document changes.  With plain field names in [d] the document becomes
    itself overlaid with those fields. *)
Theorem update_by_id_changes_that_document env data w id :
  connected w → keyed_by_id (docs w) → id ≠ "" →
  ∃ w',
    update env {[ "_id" := VStr id ]} data w
      = (Ok (match docs w !! id with Some _ => 1%nat | None => 0%nat end), w')
    ∧ (∀ k, k ≠ id → docs w' !! k = docs w !! k)
    ∧ docs w' !! id
      = (λ r, apply_update (updateData env data (clock_reads w)) r)
          <$> docs w !! id
    ∧ (plain_fields data →
       docs w' !! id
       = (λ r, updateData env data (clock_reads w) ∪ r) <$> docs w !! id).
Proof.
  intros Hc Hkey Hne.
  destruct (update_run env {[ "_id" := VStr id ]} data w Hc Hkey)
    as (w' & Hrun & _ & _ & Habsent & Hframe & Hupd).
  rewrite selected_by_id in Hrun, Hupd by exact Hkey.
  assert (docs w' !! id
          = (λ r, apply_update (updateData env data (clock_reads w)) r)
              <$> docs w !! id) as Hdoc; [| exists w'; split; [| split; [| split]]].
  4: exact Hdoc.
  4: { intros Hplain. rewrite Hdoc. destruct (docs w !! id) as [r |]; cbn;
         [| reflexivity].
       by rewrite (apply_update_plain _ r (updateData_plain env data _ Hplain)). }
  - destruct (docs w !! id) as [r |] eqn:E; [| exact (Habsent id E)].
    destruct (Hupd id r E) as (t & Ht & ->).
    + apply matches_agrees. intros key v Hq.
      apply lookup_singleton_Some in Hq as [<- <-]. apply (Hkey id r E).
    + cbn in Ht. cbn. do 3 f_equal. lia.
  - rewrite Hrun. by destruct (docs w !! id).
  - intros k Hk. destruct (docs w !! k) as [r |] eqn:E; [| exact (Habsent k E)].
    apply (Hframe k r E). apply not_true_is_false. intros Hm.
    apply matches_agrees in Hm. destruct (Hkey k r E) as [Hid _].
    rewrite (agrees_id _ r id Hm) in Hid by (by simplify_map_eq).
    by simplify_eq.
Qed.

(** ** The further properties at concrete worlds *)

Lemma world_one_record_stamped : stamped_in_past env0 world_one_record.
Proof.
  intros k r. rewrite world_one_record_docs.
  intros [<- <-]%lookup_singleton_Some. exists 2%nat.
  split; [vm_compute; lia | by vm_compute].
Qed.

Lemma world_mixed_connected : connected world_mixed.
Proof. split; vm_compute; eauto. Qed.

Lemma well_formed_query_decide (q : Query) :
  bool_decide
    (map_Forall (λ k _, forallb plain_name (field_path k) = true) q) = true →
  well_formed_query q.
Proof.
  intros H%bool_decide_eq_true_1 k [v Hk]. apply Forall_forall.
  intros seg Hseg%list_elem_of_In.
  exact (proj1 (forallb_forall _ _) (H k v Hk) seg Hseg).
Qed.

Lemma get_returns_exactly_the_agreeing_records_witness :
  connected world_one_record
  ∧ well_formed_query {[ "name" := VStr "a" ]}
  ∧ ∃ rs,
      get {[ "name" := VStr "a" ]} world_one_record
        = (Ok rs, after_call world_one_record
                    (CGetDocs [("name", VStr "a")]))
      ∧ In one_record rs.
Proof.
  pose proof world_one_record_connected as H.
  assert (well_formed_query {[ "name" := VStr "a" ]}) as Q
    by (apply well_formed_query_decide; vm_compute; reflexivity).
  split; [exact H |]. split; [exact Q |].
  destruct (get_returns_exactly_the_agreeing_records
              {[ "name" := VStr "a" ]} world_one_record H Q)
    as (rs & Hrun & Hin & _).
  exists rs. split; [exact Hrun |]. apply Hin. split.
  - exists id_one_record. by vm_compute.
  - intros key v [<- <-]%lookup_singleton_Some. by vm_compute.
Defined.

Lemma exists_without_id_agrees_with_count_witness :
  connected world_one_record
  ∧ truthy (({[ "name" := VStr "a" ]} : Query) !! "_id") = false
  ∧ well_formed_query {[ "name" := VStr "a" ]}
  ∧ ∃ b n,
      (exists_ {[ "name" := VStr "a" ]} world_one_record).1 = Ok b
      ∧ (count {[ "name" := VStr "a" ]} world_one_record).1 = Ok n
      ∧ (b = true ↔ n ≠ 0%nat).
Proof.
  pose proof world_one_record_connected as H.
  assert (truthy (({[ "name" := VStr "a" ]} : Query) !! "_id") = false) as Hq
    by (by vm_compute).
  assert (well_formed_query {[ "name" := VStr "a" ]}) as Q
    by (apply well_formed_query_decide; vm_compute; reflexivity).
  split; [exact H |]. split; [exact Hq |]. split; [exact Q |].
  destruct (exists_without_id_agrees_with_count
              {[ "name" := VStr "a" ]} world_one_record H Hq Q)
    as (b & n & Hb & Hn & Hbn & _).
  exists b, n. split; [exact Hb |]. split; [exact Hn | exact Hbn].
Defined.

Lemma exists_by_id_disregards_other_fields_witness :
  connected world_one_record
  ∧ keyed_by_id (docs world_one_record)
  ∧ (exists_ {[ "_id" := VStr id_one_record; "name" := VStr "other" ]}
       world_one_record).1 = Ok true
  ∧ (count {[ "_id" := VStr id_one_record; "name" := VStr "other" ]}
       world_one_record).1 = Ok 0%nat.
Proof.
  pose proof world_one_record_connected as H.
  pose proof world_one_record_keyed as K.
  split; [exact H |]. split; [exact K |].
  destruct (exists_by_id_disregards_other_fields
              {[ "_id" := VStr id_one_record; "name" := VStr "other" ]}
              world_one_record id_one_record one_record "name" (VStr "other")
              H K) as (He & Hn & _);
    [by vm_compute | by vm_compute | by vm_compute | by vm_compute |].
  split; [exact He | exact Hn].
Defined.

Lemma getOne_rejects_non_string_id_witness :
  connected world_one_record
  ∧ getOne {[ "_id" := VNum 7 ]} world_one_record
    = (Err (BackendFailure "invalid-argument"), world_one_record).
Proof.
  pose proof world_one_record_connected as H.
  split; [exact H |].
  apply (getOne_rejects_non_string_id {[ "_id" := VNum 7 ]}
           world_one_record (VNum 7) H);
    [by vm_compute | by vm_compute | discriminate].
Defined.

Lemma set_adds_or_replaces_one_document_witness :
  connected world_one_record
  ∧ size (docs (set env0 {[ "name" := VStr "b" ]} world_one_record).2) = 2%nat.
Proof.
  pose proof world_one_record_connected as H.
  split; [exact H |].
  destruct (set_adds_or_replaces_one_document env0 {[ "name" := VStr "b" ]}
              world_one_record H) as (_ & _ & _ & Hfree & _).
  rewrite Hfree by (by vm_compute). by vm_compute.
Defined.

Lemma update_keeps_the_identifiers_witness :
  connected world_one_record
  ∧ keyed_by_id (docs world_one_record)
  ∧ size (docs (update env0 ∅ {[ "name" := VStr "b" ]} world_one_record).2)
    = 1%nat.
Proof.
  pose proof world_one_record_connected as H.
  pose proof world_one_record_keyed as K.
  split; [exact H |]. split; [exact K |].
  destruct (update_keeps_the_identifiers env0 ∅ {[ "name" := VStr "b" ]}
              world_one_record H K) as (_ & -> & _).
  by vm_compute.
Defined.


Lemma getOne_by_id_agrees_with_get_witness :
  connected world_one_record
  ∧ keyed_by_id (docs world_one_record)
  ∧ (getOne {[ "_id" := VStr id_one_record ]} world_one_record).1
    = Ok (Some one_record)
  ∧ (get {[ "_id" := VStr id_one_record ]} world_one_record).1
    = Ok [one_record].
Proof.
  pose proof world_one_record_connected as H.
  pose proof world_one_record_keyed as K.
  split; [exact H |]. split; [exact K |].
  destruct (getOne_by_id_agrees_with_get world_one_record id_one_record H K)
    as (Hone & Hget & _); [discriminate |].
  split; [rewrite Hone | rewrite Hget]; by vm_compute.
Defined.

Lemma delete_by_id_removes_that_document_witness :
  connected world_one_record
  ∧ keyed_by_id (docs world_one_record)
  ∧ ∃ w',
      delete_ {[ "_id" := VStr id_one_record ]} world_one_record = (Ok 1%nat, w')
      ∧ docs w' = ∅.
Proof.
  pose proof world_one_record_connected as H.
  pose proof world_one_record_keyed as K.
  split; [exact H |]. split; [exact K |].
  destruct (delete_by_id_removes_that_document world_one_record id_one_record
              H K) as (w' & Hrun & Hdocs & _); [discriminate |].
  exists w'. split; [rewrite Hrun | rewrite Hdocs]; by vm_compute.
Defined.

Lemma delete_then_nothing_matches_witness :
  connected world_one_record
  ∧ keyed_by_id (docs world_one_record)
  ∧ well_formed_query {[ "name" := VStr "a" ]}
  ∧ ∃ n w',
      delete_ {[ "name" := VStr "a" ]} world_one_record = (Ok n, w')
      ∧ (count {[ "name" := VStr "a" ]} world_one_record).1 = Ok n
      ∧ (get {[ "name" := VStr "a" ]} w').1 = Ok [].
Proof.
  pose proof world_one_record_connected as H.
  pose proof world_one_record_keyed as K.
  assert (well_formed_query {[ "name" := VStr "a" ]}) as Q
    by (apply well_formed_query_decide; vm_compute; reflexivity).
  split; [exact H |]. split; [exact K |]. split; [exact Q |].
  destruct (delete_then_nothing_matches {[ "name" := VStr "a" ]}
              world_one_record H K Q) as (n & w' & Hrun & Hn & _ & Hget & _).
  exists n, w'. split; [exact Hrun |]. split; [exact Hn | exact Hget].
Defined.

Lemma delete_stops_at_unaddressable_record_witness :
  connected world_mixed
  ∧ ∃ w',
      delete_ ∅ world_mixed = (Err (BackendFailure "invalid-argument"), w')
      ∧ docs w' !! "a" = None
      ∧ docs w' !! "legacy" = Some {[ "name" := VStr "y" ]}.
Proof.
  pose proof world_mixed_connected as H.
  split; [exact H |].
  destruct (delete_stops_at_unaddressable_record ∅ world_mixed
              [ {[ "_id" := VStr "a"; "name" := VStr "x" ]} ]
              {[ "name" := VStr "y" ]} [] H)
    as (w' & Hrun & Hgone & Hkept).
  - by vm_compute.
  - intros r [<- | []]. exists "a". split; [by vm_compute | discriminate].
  - by vm_compute.
  - exists w'. split; [exact Hrun |]. split.
    + change "a" with (record_id {[ "_id" := VStr "a"; "name" := VStr "x" ]}).
      apply Hgone. by left.
    + rewrite Hkept; [by vm_compute |].
      intros r [<- | []]. by vm_compute.
Defined.

Example world_two_records_ids :
  map record_id (snapshot_docs (docs world_two_records))
  = [id_one_record; id_second_record].
Proof. vm_compute. reflexivity. Qed.

Lemma world_two_records_connected : connected world_two_records.
Proof. split; vm_compute; eauto. Qed.

Lemma world_two_records_keyed : keyed_by_id (docs world_two_records).
Proof.
  pose proof (set_invariant env0 {[ "name" := VStr "b" ]} world_one_record
                world_one_record_connected world_one_record_keyed
                world_one_record_stamped) as [K _].
  exact K.
Qed.

Lemma delete_sends_one_request_per_record_witness :
  connected world_two_records
  ∧ keyed_by_id (docs world_two_records)
  ∧ calls (delete_ ∅ world_two_records).2
    = (calls world_two_records
       ++ [CGetDocs []; CDeleteDoc id_one_record;
           CDeleteDoc id_second_record])%list.
Proof.
  pose proof world_two_records_connected as H.
  pose proof world_two_records_keyed as K.
  split; [exact H |]. split; [exact K |].
  destruct (delete_sends_one_request_per_record ∅ world_two_records H K)
    as (-> & _).
  by vm_compute.
Defined.

Lemma update_sends_one_request_per_record_witness :
  connected world_two_records
  ∧ keyed_by_id (docs world_two_records)
  ∧ calls (update env0 ∅ {[ "name" := VStr "c"; "_id" := VStr "zz" ]}
             world_two_records).2
    = (calls world_two_records
       ++ [CGetDocs [];
           CUpdateDoc id_one_record
             {[ "name" := VStr "c";
                "_updatedAt" := VStr "2023-11-14T22:13:20.006Z" ]};
           CUpdateDoc id_second_record
             {[ "name" := VStr "c";
                "_updatedAt" := VStr "2023-11-14T22:13:20.007Z" ]}])%list.
Proof.
  pose proof world_two_records_connected as H.
  pose proof world_two_records_keyed as K.
  split; [exact H |]. split; [exact K |].
  destruct (update_sends_one_request_per_record env0 ∅
              {[ "name" := VStr "c"; "_id" := VStr "zz" ]}
              world_two_records H K) as (-> & _).
  by vm_compute.
Defined.

Lemma update_by_id_changes_that_document_witness :
  connected world_one_record
  ∧ keyed_by_id (docs world_one_record)
  ∧ ∃ w',
      update env0 {[ "_id" := VStr id_one_record ]} {[ "name" := VStr "b" ]}
        world_one_record = (Ok 1%nat, w')
      ∧ docs w' !! id_one_record
        = Some (<["_updatedAt" := VStr "2023-11-14T22:13:20.003Z"]>
                  (<["name" := VStr "b"]> one_record)).
Proof.
  pose proof world_one_record_connected as H.
  pose proof world_one_record_keyed as K.
  split; [exact H |]. split; [exact K |].
  destruct (update_by_id_changes_that_document env0 {[ "name" := VStr "b" ]}
              world_one_record id_one_record H K)
    as (w' & Hrun & _ & Hdoc & _); [discriminate |].
  exists w'. split; [rewrite Hrun | rewrite Hdoc]; by vm_compute.
Defined.
